(** * Kinematic space information: motion validation over a subdivided edge

    A shallow embedding of [SpaceInformationKinematic.cpp]
    (ompl, extension/kinematic).  The C++ [double] is idealised as an exact
    rational ([Q]).  The C++ [int] has 32 bits: a value of [Z] within
    [int_min .. int_max], with the wrap-around of the machine written out
    where [findDifferenceStep] converts a quotient to [int] and increments
    it, and where [checkMotionSubdivision] adds two grid indices.  A
    [State] is its array of [values]. *)

From Stdlib Require Import List ZArith QArith Qabs Qround Lia Lqa Bool.
Import ListNotations.

Local Open Scope Z_scope.

(** ** Data model *)

(** Modelled from the spec: the kinds of [base::StateComponent], whose
    declaration is not among the sources at hand.  The code names
    [WRAPPING_ANGLE] and [QUATERNION]; the spec calls the remaining kind
    linear. *)
Inductive ComponentType : Type :=
| LINEAR
| WRAPPING_ANGLE
| QUATERNION.

(** [base::StateComponent]: the per-dimension metadata. *)
Record StateComponent : Type := mkStateComponent {
  type : ComponentType;
  minValue : Q;
  maxValue : Q;
  resolution : Q
}.

(** [base::State]: [values], an array of [m_stateDimension] doubles. *)
Definition State : Type := list Q.

Definition ComponentType_eqb (a b : ComponentType) : bool :=
  match a, b with
  | LINEAR, LINEAR | WRAPPING_ANGLE, WRAPPING_ANGLE | QUATERNION, QUATERNION => true
  | _, _ => false
  end.

(** The range of the 32-bit [int]. *)
Definition int_min : Z := - 2147483648.
Definition int_max : Z := 2147483647.

(** The wrap-around of 32-bit two's complement arithmetic. *)
Definition wrap_int (z : Z) : Z := (z + 2147483648) mod 4294967296 - 2147483648.

(** Truncation toward zero. *)
Definition Qtruncate (x : Q) : Z := Z.quot (Qnum x) (Z.pos (Qden x)).

(** The C++ conversion [(int)x] of a double: truncation toward zero for a
    value within the range of [int]; outside this range, where C++ leaves
    the conversion undefined, what the conversion instruction of the
    machine gives, [int_min]. *)
Definition double_to_int (x : Q) : Z :=
  let t := Qtruncate x in
  if (int_min <=? t) && (t <=? int_max) then t else int_min.

(** [values[i]] of a state; the array is read inside its bounds by every
    loop below, which all run over [0 .. m_stateDimension - 1]. *)
Definition value (s : State) (i : nat) : Q := nth i s 0%Q.

(** [st->values[k] = f k] for every [k < dim]: the loops that fill a state
    write each of its [dim] slots. *)
Definition fill_values (dim : nat) (f : nat -> Q) : State := map f (seq 0 dim).

(** [a[i] = v] on an array or vector; every index written by the code
    below is inside the container. *)
Fixpoint array_set {A : Type} (a : list A) (i : nat) (v : A) : list A :=
  match a, i with
  | [], _ => []
  | _ :: tl, O => v :: tl
  | x :: tl, S i' => x :: array_set tl i' v
  end.

(** [st->values[i] = v]. *)
Definition set_value (s : State) (i : nat) (v : Q) : State := array_set s i v.

(** [new base::State(dim)]: a buffer of [dim] scalars; its contents are
    written before they are read. *)
Definition new_State (dim : nat) : State := repeat 0%Q dim.

(** [std::vector<base::State*>::resize(n)]: a vector of pointers, [None]
    for the null pointer that fills the new slots. *)
Definition resize (v : list (option State)) (n : nat) : list (option State) :=
  firstn n v ++ repeat None (n - length v).

(** [std::max(a, b)] and [std::min(a, b)] on doubles. *)
Definition std_max (a b : Q) : Q := if Qle_bool b a then a else b.
Definition std_min (a b : Q) : Q := if Qle_bool a b then a else b.

(** Modelled from the spec: [copyState(destination, source)] of the base
    class [SpaceInformation], which is not among the sources at hand; the
    spec has states as value buffers whose copies are deep, so the
    destination holds the values of the source afterwards. *)
Definition copyState (destination source : State) : State := source.

(** [a < b] on doubles. *)
Definition Qlt_bool (a b : Q) : bool := negb (Qle_bool b a).

(** The goal of the planning query: [base::GoalState] carries a state
    pointer; any other kind of goal fails the [dynamic_cast]. *)
Inductive Goal : Type :=
| GoalState (state : option State)
| GoalOther.

(** What [m_msg] is told. *)
Inductive Message : Type :=
| msg_initial_not_valid
| msg_initial_not_within_bounds
| msg_attempt_fix_initial (st : State) (rho : list Q)
| warn_unable_fix_start (i : nat)
| msg_goal_not_valid
| msg_goal_not_within_bounds
| msg_attempt_fix_goal (st : State) (rho : list Q)
| warn_unable_fix_goal.

(** The members that [fixInvalidInputStates] reads and writes; a null
    pointer is [None]. *)
Record PlanningQuery : Type := mkPlanningQuery {
  m_startStates : list (option State);
  m_goal : option Goal;
  m_msg : list Message
}.

(** [PathKinematic]: the sequence [states] of owned states. *)
Record PathKinematic : Type := mkPathKinematic { states : list State }.

(** What [checkMotionIncremental] leaves behind: the returned flag, the
    contents of the two optional output parameters ([None] for a null
    pointer), and the states it handed to [isValid], in order. *)
Record IncrementalOutcome : Type := mkIncrementalOutcome {
  ok : bool;
  out_lastValidState : option State;
  out_lastValidTime : option Q;
  queries : list State
}.

(** ** Scenario data

    The spaces, validity predicates and generators on which the properties
    below are exercised. *)

(** Two linear axes, bounds [0,10] on each, resolution 1. *)
Definition corridor_space : list StateComponent :=
  [mkStateComponent LINEAR 0 10 1; mkStateComponent LINEAR 0 10 1].

(** The ends of the edge along the lower side, and of an edge beside it. *)
Definition corridor_start : State := [0; 0]%Q.
Definition corridor_end : State := [10; 0]%Q.
Definition beside_start : State := [0; 2]%Q.
Definition beside_end : State := [10; 2]%Q.

(** Two linear axes of resolution 1 that reach to ten thousand million, and
    the far end of the lower side. *)
Definition long_space : list StateComponent :=
  [mkStateComponent LINEAR 0 10000000000 1; mkStateComponent LINEAR 0 10000000000 1].
Definition long_end : State := [10000000000; 0]%Q.

(** A nearer end of the lower side, two thousand million away. *)
Definition far_end : State := [2000000000; 0]%Q.

(** No obstacle. *)
Definition free_space (s : State) : bool := true.

(** Nothing is valid. *)
Definition blocked_space (s : State) : bool := false.

(** Validity is being outside the disk of centre (5,0) and radius 1/2. *)
Definition outside_disk (s : State) : bool :=
  Qlt_bool (1 # 4) ((value s 0 - 5) * (value s 0 - 5) + value s 1 * value s 1)%Q.

(** Validity is having the second value below 5. *)
Definition below_five (s : State) : bool := Qlt_bool (value s 1) 5.

(** A short edge along the lower side, and a state outside the bounds. *)
Definition short_end : State := [1 # 2; 0]%Q.
Definition outside_start : State := [-1; 5]%Q.
Definition half_margins : list Q := [1 # 2; 1 # 2]%Q.

(** A query with a start state outside the bounds, a null start state and a
    goal that is not a state. *)
Definition mixed_query : PlanningQuery :=
  mkPlanningQuery [Some outside_start; None] (Some GoalOther) [].

(** A rational stand-in for the constant [M_PI] of the [angles] package. *)
Definition M_PI : Q := 355 # 113.

Definition fmod (x y : Q) : Q := (x - y * inject_Z (Qtruncate (x / y)))%Q.

(** The functions of the [angles] package, over the rationals. *)
Definition normalize_angle_positive (angle : Q) : Q :=
  fmod (fmod angle (2 * M_PI) + 2 * M_PI) (2 * M_PI).

Definition normalize_angle (angle : Q) : Q :=
  let a := normalize_angle_positive angle in
  if Qlt_bool M_PI a then (a - 2 * M_PI)%Q else a.

Definition angles_shortest_angular_distance (from to : Q) : Q :=
  let result := normalize_angle_positive
                  (normalize_angle_positive to - normalize_angle_positive from) in
  let result := if Qlt_bool M_PI result then (- (2 * M_PI - result))%Q else result in
  normalize_angle result.

(** One wrapping axis of resolution 1/10. *)
Definition circle_space : list StateComponent :=
  [mkStateComponent WRAPPING_ANGLE (- M_PI) M_PI (1 # 10)].

(** A generator without state that draws the lower end of every interval
    and the identity rotation. *)
Definition lowest_uniform (g : unit) (a b : Q) : Q * unit := (a, g).
Definition identity_quaternion (g : unit) : (Q * Q * Q * Q) * unit :=
  ((0, 0, 0, 1)%Q, g).

Section SpaceInformationKinematic.

(** The space descriptor, [m_stateComponent]; [m_stateDimension] is its
    length. *)
Variable m_stateComponent : list StateComponent.

(** [angles::shortest_angular_distance(from, to)] of the external
    [angles] package. *)
Variable shortest_angular_distance : Q -> Q -> Q.

(** The injected [m_stateValidityChecker], called through [isValid]. *)
Variable isValid : State -> bool.

Definition m_stateDimension : nat := length m_stateComponent.

Definition component (i : nat) : StateComponent :=
  nth i m_stateComponent (mkStateComponent LINEAR 0 0 0).

(** *** findDifferenceStep *)

(** The [diff] array of [findDifferenceStep]. *)
Definition find_diff (s1 s2 : State) : list Q :=
  fill_values m_stateDimension (fun i =>
    if ComponentType_eqb (type (component i)) WRAPPING_ANGLE
    then shortest_angular_distance (value s1 i) (value s2 i)
    else (value s2 i - value s1 i)%Q).

(** One round of the loop that finds the number of divisions. *)
Definition divisions_step (factor : Q) (diff : list Q) (nd : Z) (i : nat) : Z :=
  let d := wrap_int
             (1 + double_to_int (Qabs (value diff i) / (factor * resolution (component i)))) in
  if nd <? d then d else nd.

Definition findDifferenceStep (s1 s2 : State) (factor : Q) : Z * list Q :=
  let diff := find_diff s1 s2 in
  let nd := fold_left (divisions_step factor diff) (seq 0 m_stateDimension) 1 in
  let step := map (fun x => (x / inject_Z nd)%Q) diff in
  (nd, step).

(** The state tested at grid index [k]: [s1->values[j] + (double)k * step[j]]. *)
Definition grid_state (s1 : State) (step : list Q) (k : Z) : State :=
  fill_values m_stateDimension (fun j => (value s1 j + inject_Z k * value step j)%Q).

(** *** checkMotionSubdivision *)

(** The two [pos.push] calls that follow the test of [mid] for the range
    [x] taken from the front of the queue. *)
Definition push_halves (x : Z * Z) (mid : Z) : list (Z * Z) :=
  (if fst x <? mid then [(fst x, mid - 1)] else []) ++
  (if snd x >? mid then [(mid + 1, snd x)] else []).

(** The [while (!pos.empty())] loop on the queue [pos]: [Some true] when
    the queue drains, [Some false] at the first invalid midpoint.  The
    midpoint is the half of a sum of two [int]s.  [fuel] bounds the number of
    rounds; the result is [None] when it is used up. *)
Fixpoint subdivision_loop (fuel : nat) (s1 : State) (step : list Q)
    (pos : list (Z * Z)) : option bool :=
  match pos with
  | [] => Some true
  | x :: rest =>
      match fuel with
      | O => None
      | S fuel' =>
          let mid := Z.quot (wrap_int (fst x + snd x)) 2 in
          if negb (isValid (grid_state s1 step mid)) then Some false
          else subdivision_loop fuel' s1 step (rest ++ push_halves x mid)
      end
  end.

(** The loop of the code has no bound on its rounds.  A run over the grid
    of [nd] divisions tests every index once and ends within [nd] rounds.
    A run that needs more has left the grid, a sum of two indices having
    wrapped around; it never drains its queue and ends, if ever, at an
    invalid state: the result is false for it. *)
Definition checkMotionSubdivision (s1 s2 : State) : bool :=
  if negb (isValid s2) then false
  else
    let '(nd, step) := findDifferenceStep s1 s2 1 in
    let pos := if nd >=? 2 then [(1, nd - 1)] else [] in
    match subdivision_loop (Z.to_nat nd) s1 step pos with
    | Some result => result
    | None => false
    end.

(** *** checkMotionIncremental *)

(** The [for (int j = 1 ; j < nd ; ++j)] loop; [n] counts the rounds that
    remain, [asked] the states already handed to [isValid]. *)
Fixpoint incremental_loop (s1 : State) (step : list Q) (nd : Z) (n : nat) (j : Z)
    (lastValidState : option State) (lastValidTime : option Q)
    (asked : list State) : IncrementalOutcome :=
  match n with
  | O => mkIncrementalOutcome true lastValidState lastValidTime asked
  | S n' =>
      let factor := inject_Z j in
      let test := fill_values m_stateDimension
                    (fun k => (value s1 k + factor * value step k)%Q) in
      if negb (isValid test) then
        let lastValidState' :=
          match lastValidState with
          | Some _ =>
              let factor := (factor - 1)%Q in
              Some (fill_values m_stateDimension
                      (fun k => (value s1 k + factor * value step k)%Q))
          | None => None
          end in
        let lastValidTime' :=
          match lastValidTime with
          | Some _ => Some (inject_Z (j - 1) / inject_Z nd)%Q
          | None => None
          end in
        mkIncrementalOutcome false lastValidState' lastValidTime' (asked ++ [test])
      else
        incremental_loop s1 step nd n' (j + 1) lastValidState lastValidTime
          (asked ++ [test])
  end.

Definition checkMotionIncremental (s1 s2 : State)
    (lastValidState : option State) (lastValidTime : option Q) : IncrementalOutcome :=
  if negb (isValid s2) then
    mkIncrementalOutcome false lastValidState lastValidTime [s2]
  else
    let '(nd, step) := findDifferenceStep s1 s2 1 in
    incremental_loop s1 step nd (Z.to_nat (nd - 1)) 1 lastValidState lastValidTime [s2].

(** *** checkPath *)

(** The [for (int j = 0 ; result && j < last ; ++j)] loop; [n] counts the
    indices that remain below [last]. *)
Fixpoint checkPath_loop (sts : list State) (n : nat) (j : nat) (result : bool) : bool :=
  match n with
  | O => result
  | S n' =>
      if result then
        if negb (checkMotionSubdivision (nth j sts []) (nth (j + 1) sts []))
        then checkPath_loop sts n' (j + 1) false
        else checkPath_loop sts n' (j + 1) result
      else result
  end.

(** [path] is [None] for the null pointer. *)
Definition checkPath (path : option PathKinematic) : bool :=
  let result := match path with Some _ => true | None => false end in
  match path with
  | Some p =>
      if (0 <? length (states p))%nat then
        if isValid (nth 0 (states p) []) then
          let last := (length (states p) - 1)%nat in
          checkPath_loop (states p) last 0 result
        else false
      else result
  | None => result
  end.

(** *** getMotionStates *)

(** The loop over the states in between,
    [for (int j = 1 ; j < nd && added < states.size() ; ++j)]; [n] counts
    the values of [j] that remain below [nd].  The result is [None] when a
    null slot is written through. *)
Fixpoint motion_states_loop (s1 : State) (step : list Q) (alloc : bool)
    (n : nat) (j : nat) (added : nat) (sts : list (option State))
    : option (nat * list (option State)) :=
  match n with
  | O => Some (added, sts)
  | S n' =>
      if (added <? length sts)%nat then
        let added := S added in
        let sts := if alloc
                   then array_set sts j (Some (new_State m_stateDimension))
                   else sts in
        match nth_error sts j with
        | Some (Some _) =>
            let state := fill_values m_stateDimension
                           (fun k => (value s1 k + inject_Z (Z.of_nat j) * value step k)%Q) in
            motion_states_loop s1 step alloc n' (S j) added (array_set sts j (Some state))
        | _ => None
        end
      else Some (added, sts)
  end.

Definition getMotionStates (s1 s2 : State) (sts : list (option State)) (alloc : bool)
    : option (nat * list (option State)) :=
  let '(nd, step) := findDifferenceStep s1 s2 1 in
  let sts := if alloc
             then array_set (resize sts (Z.to_nat (nd + 1))) 0
                    (Some (new_State m_stateDimension))
             else sts in
  let added := 0%nat in
  let first :=
    if (0 <? length sts)%nat then
      match nth_error sts 0 with
      | Some (Some st0) => Some (S added, array_set sts 0 (Some (copyState st0 s1)))
      | _ => None
      end
    else Some (added, sts) in
  match first with
  | None => None
  | Some (added, sts) =>
      match motion_states_loop s1 step alloc (Z.to_nat (nd - 1)) 1 added sts with
      | None => None
      | Some (added, sts) =>
          if (added <? length sts)%nat then
            let sts := if alloc
                       then array_set sts added (Some (new_State m_stateDimension))
                       else sts in
            match nth_error sts added with
            | Some (Some st) =>
                Some (S added, array_set sts added (Some (copyState st s2)))
            | _ => None
            end
          else Some (added, sts)
      end
  end.

(** *** Sampling near a state *)

(** The random number generator [m_rng] of a [SamplingCore]: its state and
    the two draws the code uses. *)
Variable RNG : Type.
Variable rng_uniform : RNG -> Q -> Q -> Q * RNG.
Variable rng_quaternion : RNG -> (Q * Q * Q * Q) * RNG.

(** [SamplingCore::sampleNear(state, near, rho)] with a vector [rho]; [n]
    bounds the rounds of the [for] loop, whose index advances by one, or by
    four over a quaternion. *)
Fixpoint sampleNear_loop (n : nat) (i : nat) (state near : State) (rho : list Q)
    (m_rng : RNG) : State * RNG :=
  match n with
  | O => (state, m_rng)
  | S n' =>
      if (i <? m_stateDimension)%nat then
        let comp := component i in
        if ComponentType_eqb (type comp) QUATERNION then
          let '((q0, q1, q2, q3), m_rng) := rng_quaternion m_rng in
          let state := set_value (set_value (set_value (set_value state
                         i q0) (i + 1) q1) (i + 2) q2) (i + 3) q3 in
          sampleNear_loop n' (i + 3 + 1) state near rho m_rng
        else
          let '(v, m_rng) :=
            rng_uniform m_rng
              (std_max (minValue comp) (value near i - nth i rho 0)%Q)
              (std_min (maxValue comp) (value near i + nth i rho 0)%Q) in
          sampleNear_loop n' (i + 1) (set_value state i v) near rho m_rng
      else (state, m_rng)
  end.

Definition sampleNear (state near : State) (rho : list Q) (m_rng : RNG) : State * RNG :=
  sampleNear_loop m_stateDimension 0 state near rho m_rng.

(** *** searchValidNearby *)

(** Modelled from the spec: [satisfiesBounds] of the base class
    [SpaceInformation], which is not among the sources at hand; the spec
    derives it from the space descriptor, every value lying within the
    inclusive bounds of its component. *)
Definition satisfiesBounds (s : State) : bool :=
  forallb (fun i => Qle_bool (minValue (component i)) (value s i)
                    && Qle_bool (value s i) (maxValue (component i)))
          (seq 0 m_stateDimension).

(** One round of the loop that fixes the bounds. *)
Definition clip_value (state : State) (i : nat) : State :=
  if Qlt_bool (maxValue (component i)) (value state i)
  then set_value state i (maxValue (component i))
  else if Qlt_bool (value state i) (minValue (component i))
       then set_value state i (minValue (component i))
       else state.

Definition fix_bounds (state : State) : State :=
  fold_left clip_value (seq 0 m_stateDimension) state.

(** [for (unsigned int i = 0 ; i < attempts && !result ; ++i)]. *)
Fixpoint attempts_loop (attempts : nat) (result : bool) (state temp : State)
    (rho : list Q) (sc : RNG) : bool * State :=
  match attempts with
  | O => (result, state)
  | S attempts' =>
      if negb result then
        let '(state, sc) := sampleNear state temp rho sc in
        attempts_loop attempts' (isValid state) state temp rho sc
      else (result, state)
  end.

(** [sc] is the generator of the [SamplingCore] constructed when no valid
    state is found at once.  The result holds the returned flag and the
    contents of [*state]; [*near] is read only. *)
Definition searchValidNearby (state near : State) (rho : list Q) (attempts : nat)
    (sc : RNG) : bool * State :=
  let state := copyState state near in
  let state := if negb (satisfiesBounds state) then fix_bounds state else state in
  let result := isValid state in
  if negb result then
    let temp := copyState (new_State m_stateDimension) state in
    attempts_loop attempts result state temp rho sc
  else (result, state).

(** *** fixInvalidInputStates *)

(** The generator of the sampler that the search started for the start
    state of index [i] constructs; the goal state comes after the start
    states. *)
Variable samplers : nat -> RNG.

(** The block applied to one non-null state [st], with the four messages of
    the start or of the goal variant: the contents of [*st] afterwards and
    the messages sent. *)
Definition fix_state (st : State) (rho : list Q) (attempts : nat) (sc : RNG)
    (not_valid not_within_bounds : Message)
    (attempting : State -> list Q -> Message) (unable : Message)
    : State * list Message :=
  let b := satisfiesBounds st in
  let '(v, said) :=
    if b then
      let v := isValid st in
      (v, if negb v then [not_valid] else [])
    else (false, [not_within_bounds]) in
  if negb b || negb v then
    let said := said ++ [attempting st rho] in
    let temp := new_State m_stateDimension in
    let '(found, temp) := searchValidNearby temp st rho attempts sc in
    if found then (copyState st temp, said)
    else (st, said ++ [unable])
  else (st, said).

(** The loop over [m_startStates], from index [i] on. *)
Fixpoint fix_start_states (sts : list (option State)) (i : nat) (rhoStart : list Q)
    (attempts : nat) : list (option State) * list Message :=
  match sts with
  | [] => ([], [])
  | None :: rest =>
      let '(rest', said) := fix_start_states rest (S i) rhoStart attempts in
      (None :: rest', said)
  | Some st :: rest =>
      let '(st', said1) :=
        fix_state st rhoStart attempts (samplers i)
          msg_initial_not_valid msg_initial_not_within_bounds
          msg_attempt_fix_initial (warn_unable_fix_start i) in
      let '(rest', said2) := fix_start_states rest (S i) rhoStart attempts in
      (Some st' :: rest', said1 ++ said2)
  end.

Definition fixInvalidInputStates (q : PlanningQuery) (rhoStart rhoGoal : list Q)
    (attempts : nat) : PlanningQuery :=
  let '(starts, said1) := fix_start_states (m_startStates q) 0 rhoStart attempts in
  let '(goal, said2) :=
    match m_goal q with
    | Some (GoalState (Some st)) =>
        let '(st', said) :=
          fix_state st rhoGoal attempts (samplers (length (m_startStates q)))
            msg_goal_not_valid msg_goal_not_within_bounds
            msg_attempt_fix_goal warn_unable_fix_goal in
        (Some (GoalState (Some st')), said)
    | g => (g, [])
    end in
  mkPlanningQuery starts goal (m_msg q ++ said1 ++ said2).

(** *** interpolatePath *)

(** The loop that finds the states in between,
    [for (int j = 1 ; j < nd ; ++j)], pushing each onto [newStates]; [n]
    counts the rounds that remain. *)
Fixpoint states_in_between (s1 : State) (step : list Q) (n : nat) (j : Z)
    (newStates : list State) : list State :=
  match n with
  | O => newStates
  | S n' =>
      let state := fill_values m_stateDimension
                     (fun k => (value s1 k + inject_Z j * value step k)%Q) in
      states_in_between s1 step n' (j + 1) (newStates ++ [state])
  end.

(** The loop over the edges, [for (int i = 0 ; i < n1 ; ++i)]; [n] counts the
    indices that remain below [n1]. *)
Fixpoint interpolate_loop (sts : list State) (factor : Q) (n : nat) (i : nat)
    (newStates : list State) : list State :=
  match n with
  | O => newStates
  | S n' =>
      let s1 := nth i sts [] in
      let s2 := nth (i + 1) sts [] in
      let newStates := newStates ++ [s1] in
      let '(nd, step) := findDifferenceStep s1 s2 factor in
      let newStates := states_in_between s1 step (Z.to_nat (nd - 1)) 1 newStates in
      interpolate_loop sts factor n' (i + 1) newStates
  end.

(** [path] is dereferenced at once, so it is not null.  The result is the
    path after the swap; it is [None] when [path->states[n1]] reads outside
    the vector, which is the case of the empty path, where [n1] is -1. *)
Definition interpolatePath (path : PathKinematic) (factor : Q) : option PathKinematic :=
  let n1 := Z.of_nat (length (states path)) - 1 in
  let newStates := interpolate_loop (states path) factor (Z.to_nat n1) 0 [] in
  if n1 <? 0 then None
  else
    match nth_error (states path) (Z.to_nat n1) with
    | Some s => Some (mkPathKinematic (newStates ++ [s]))
    | None => None
    end.

(** *** Uniform sampling *)

(** [SamplingCore::sample(state)]; [n] bounds the rounds of the [for] loop. *)
Fixpoint sample_loop (n : nat) (i : nat) (state : State) (m_rng : RNG) : State * RNG :=
  match n with
  | O => (state, m_rng)
  | S n' =>
      if (i <? m_stateDimension)%nat then
        let comp := component i in
        if ComponentType_eqb (type comp) QUATERNION then
          let '((q0, q1, q2, q3), m_rng) := rng_quaternion m_rng in
          let state := set_value (set_value (set_value (set_value state
                         i q0) (i + 1) q1) (i + 2) q2) (i + 3) q3 in
          sample_loop n' (i + 3 + 1) state m_rng
        else
          let '(v, m_rng) := rng_uniform m_rng (minValue comp) (maxValue comp) in
          sample_loop n' (i + 1) (set_value state i v) m_rng
      else (state, m_rng)
  end.

Definition sample (state : State) (m_rng : RNG) : State * RNG :=
  sample_loop m_stateDimension 0 state m_rng.

(** [SamplingCore::sampleNear(state, near, rho)] with one [rho] for all
    axes. *)
Fixpoint sampleNear_rho_loop (n : nat) (i : nat) (state near : State) (rho : Q)
    (m_rng : RNG) : State * RNG :=
  match n with
  | O => (state, m_rng)
  | S n' =>
      if (i <? m_stateDimension)%nat then
        let comp := component i in
        if ComponentType_eqb (type comp) QUATERNION then
          let '((q0, q1, q2, q3), m_rng) := rng_quaternion m_rng in
          let state := set_value (set_value (set_value (set_value state
                         i q0) (i + 1) q1) (i + 2) q2) (i + 3) q3 in
          sampleNear_rho_loop n' (i + 3 + 1) state near rho m_rng
        else
          let '(v, m_rng) :=
            rng_uniform m_rng
              (std_max (minValue comp) (value near i - rho)%Q)
              (std_min (maxValue comp) (value near i + rho)%Q) in
          sampleNear_rho_loop n' (i + 1) (set_value state i v) near rho m_rng
      else (state, m_rng)
  end.

Definition sampleNear_rho (state near : State) (rho : Q) (m_rng : RNG) : State * RNG :=
  sampleNear_rho_loop m_stateDimension 0 state near rho m_rng.

(** The number of divisions of each edge of a sequence of states, in
    order. *)
Definition edge_divisions (sts : list State) (factor : Q) : list nat :=
  map (fun i => Z.to_nat (fst (findDifferenceStep (nth i sts []) (nth (i + 1) sts []) factor)))
      (seq 0 (length sts - 1)).

(** The generator draws within the interval it is given. *)
Definition uniform_within : Prop :=
  forall (g : RNG) (a b : Q),
    (a <= b)%Q -> (a <= fst (rng_uniform g a b) <= b)%Q.

(** Every value of [s] lies within the bounds of its component. *)
Definition within_bounds (s : State) : Prop :=
  forall i, (i < m_stateDimension)%nat ->
    (minValue (component i) <= value s i <= maxValue (component i))%Q.

(** The space has no quaternion, and no component with crossed bounds. *)
Definition plain_space : Prop :=
  forall i, (i < m_stateDimension)%nat ->
    type (component i) <> QUATERNION /\
    (minValue (component i) <= maxValue (component i))%Q.

(** Every queued range is a proper one of indices from 0 on, and twice its
    upper end is within the range of [int]: no sum of two of its indices
    wraps around. *)
Definition queue_bounded (pos : list (Z * Z)) : Prop :=
  forall lo hi, In (lo, hi) pos -> 0 <= lo <= hi /\ hi + hi <= int_max.

(** Every index that a queued range holds is valid. *)
Definition queue_valid (s1 : State) (step : list Q) (pos : list (Z * Z)) : Prop :=
  forall lo hi k, In (lo, hi) pos -> lo <= k <= hi ->
    isValid (grid_state s1 step k) = true.

(** Some queued range ends at [hi], so far up that the sum of two indices
    next to [hi] wraps around. *)
Definition queue_stuck (hi : Z) (pos : list (Z * Z)) : Prop :=
  exists lo, In (lo, hi) pos /\ - 1073741824 <= lo <= hi.

(** The number of indices that the queued ranges hold. *)
Definition queue_size (pos : list (Z * Z)) : nat :=
  list_sum (map (fun x => Z.to_nat (snd x - fst x + 1)) pos).

(** What one axis asks of the number of divisions, its quotient being [q]:
    one more than the whole part of a quotient that converts within the
    range of [int] and leaves room for the increment, and nothing beyond
    the initial 1 otherwise. *)
Definition division_count (q : Q) : Z :=
  if Qle_bool 0 q && Qlt_bool q (inject_Z int_max) then 1 + Qfloor q else 1.

(** The states that [interpolatePath] pushes for the edge of index [i]: its
    first state and the grid states strictly inside. *)
Definition edge_segment (sts : list State) (factor : Q) (i : nat) : list State :=
  let s1 := nth i sts [] in
  let s2 := nth (i + 1) sts [] in
  s1 :: map (fun t => grid_state s1 (snd (findDifferenceStep s1 s2 factor))
                        (1 + Z.of_nat t))
            (seq 0 (Z.to_nat (fst (findDifferenceStep s1 s2 factor) - 1))).

(** The value that the loop fixing the bounds leaves on axis [i] in place
    of [v]. *)
Definition clipped (i : nat) (v : Q) : Q :=
  if Qlt_bool (maxValue (component i)) v then maxValue (component i)
  else if Qlt_bool v (minValue (component i)) then minValue (component i)
       else v.

(** The state that [searchValidNearby] tests first for [near]. *)
Definition projected (near : State) : State :=
  if negb (satisfiesBounds near) then fix_bounds near else near.

(** The states that [fixInvalidInputStates] may repair: the start state of
    index [i], or the state of the goal. *)
Inductive InputState : Type :=
| StartState (i : nat)
| GoalInput.

(** The contents of such a state in a query, when it is there. *)
Definition input_state (q : PlanningQuery) (w : InputState) : option State :=
  match w with
  | StartState i =>
      match nth_error (m_startStates q) i with
      | Some (Some st) => Some st
      | _ => None
      end
  | GoalInput =>
      match m_goal q with
      | Some (GoalState (Some st)) => Some st
      | _ => None
      end
  end.

(** The search that [fixInvalidInputStates] runs for the state [w], were it
    to run it: margins and sampler. *)
Definition input_search (q : PlanningQuery) (rhoStart rhoGoal : list Q)
    (attempts : nat) (w : InputState) (st : State) : bool * State :=
  match w with
  | StartState i =>
      searchValidNearby (new_State m_stateDimension) st rhoStart attempts (samplers i)
  | GoalInput =>
      searchValidNearby (new_State m_stateDimension) st rhoGoal attempts
        (samplers (length (m_startStates q)))
  end.

(** The warning that reports the failed repair of [w]. *)
Definition input_warning (w : InputState) : Message :=
  match w with
  | StartState i => warn_unable_fix_start i
  | GoalInput => warn_unable_fix_goal
  end.

(** What [getMotionStates] leaves in slot [j] of the sequence, [old] being
    what the slot held: [s1] first, then the grid states, then [s2]. *)
Definition motion_slot (s1 s2 : State) (step : list Q) (nd : nat)
    (old : option (option State)) (j : nat) : option (option State) :=
  if (j =? 0)%nat then Some (Some s1)
  else if (j <? nd)%nat then Some (Some (grid_state s1 step (Z.of_nat j)))
  else if (j =? nd)%nat then Some (Some s2)
  else old.

(** No null slot is written through: either every slot is allocated by
    the call, or the caller passed a vector of allocated states. *)
Definition writable (alloc : bool) (sts : list (option State)) : Prop :=
  alloc = true \/ Forall (fun p => p <> None) sts.

(** ** The difference step as the specification words it *)

Definition spec_shortest_delta (i : nat) (a b : Q) : Q :=
  match type (component i) with
  | LINEAR => (b - a)%Q
  | WRAPPING_ANGLE => shortest_angular_distance a b
  | QUATERNION => (b - a)%Q
  end.

Definition spec_diff (s1 s2 : State) (i : nat) : Q :=
  spec_shortest_delta i (value s1 i) (value s2 i).

(** The greatest element of the non-empty [x :: l]. *)
Definition maximum (x : Z) (l : list Z) : Z := fold_left Z.max l x.

(** [max(1, max_i (1 + floor(|diff[i]| / (rho * resolution[i]))))]. *)
Definition spec_nd (s1 s2 : State) (rho : Q) : Z :=
  match map (fun i => 1 + Qfloor (Qabs (spec_diff s1 s2 i) / (rho * resolution (component i))))
            (seq 0 m_stateDimension) with
  | [] => 1
  | d :: ds => Z.max 1 (maximum d ds)
  end.

(** ** Properties of findDifferenceStep *)

Lemma fill_values_length (dim : nat) (f : nat -> Q) :
  length (fill_values dim f) = dim.
Proof. unfold fill_values. now rewrite length_map, length_seq. Qed.

Lemma value_fill_values (dim : nat) (f : nat -> Q) (i : nat) :
  (i < dim)%nat -> value (fill_values dim f) i = f i.
Proof.
  intros Hi. unfold value, fill_values.
  rewrite (nth_indep _ 0%Q (f 0%nat)) by now rewrite length_map, length_seq.
  rewrite map_nth, seq_nth by assumption. reflexivity.
Qed.

Lemma find_diff_value (s1 s2 : State) (i : nat) :
  (i < m_stateDimension)%nat -> value (find_diff s1 s2) i = spec_diff s1 s2 i.
Proof.
  intros Hi. unfold find_diff. rewrite value_fill_values by assumption.
  unfold spec_diff, spec_shortest_delta.
  destruct (type (component i)); reflexivity.
Qed.

Lemma Qtruncate_floor (x : Q) : (0 <= x)%Q -> Qtruncate x = Qfloor x.
Proof.
  destruct x as [n d]. unfold Qle, Qtruncate, Qfloor. simpl. intros H.
  apply Z.quot_div_nonneg; lia.
Qed.

Lemma Qtruncate_negative (x : Q) : (x < 0)%Q -> Qtruncate x <= 0.
Proof.
  destruct x as [n d]. unfold Qlt, Qtruncate. simpl. intros H.
  pose proof (Z.quot_opp_l n (Z.pos d) ltac:(lia)) as E.
  pose proof (Z.quot_pos (- n) (Z.pos d)). lia.
Qed.

Lemma wrap_int_in_range (z : Z) : int_min <= z <= int_max -> wrap_int z = z.
Proof.
  unfold int_min, int_max, wrap_int. intros H.
  rewrite Z.mod_small by lia. lia.
Qed.

Lemma double_to_int_cases (x : Q) :
  (int_min <= Qtruncate x <= int_max /\ double_to_int x = Qtruncate x) \/
  ((Qtruncate x < int_min \/ int_max < Qtruncate x) /\ double_to_int x = int_min).
Proof.
  unfold double_to_int. cbv zeta.
  destruct (Z.leb_spec int_min (Qtruncate x)), (Z.leb_spec (Qtruncate x) int_max);
    cbn [andb]; [left | right | right | right]; (split; [lia | reflexivity]).
Qed.

Lemma Qlt_bool_false (a b : Q) : Qlt_bool a b = false -> (b <= a)%Q.
Proof.
  unfold Qlt_bool. intros H. apply Qle_bool_iff.
  destruct (Qle_bool b a); [reflexivity | discriminate].
Qed.

Lemma Qlt_bool_true (a b : Q) : Qlt_bool a b = true -> (a < b)%Q.
Proof.
  unfold Qlt_bool. intros H. apply Qnot_le_lt. intros Hle.
  apply Qle_bool_iff in Hle. rewrite Hle in H. discriminate.
Qed.

Lemma Qlt_bool_iff (a b : Q) : Qlt_bool a b = true <-> (a < b)%Q.
Proof.
  unfold Qlt_bool. split.
  - intros H. apply Qnot_le_lt. intros Hle. apply Qle_bool_iff in Hle.
    rewrite Hle in H. discriminate.
  - intros H. destruct (Qle_bool b a) eqn:E; [|reflexivity].
    apply Qle_bool_iff in E. exfalso. apply (Qlt_irrefl a).
    now apply Qlt_le_trans with b.
Qed.

Lemma division_count_in_range (q : Q) :
  (0 <= q)%Q -> (q < inject_Z int_max)%Q -> division_count q = 1 + Qfloor q.
Proof.
  intros H0 H1. unfold division_count.
  rewrite (proj2 (Qle_bool_iff 0 q) H0), (proj2 (Qlt_bool_iff _ _) H1). reflexivity.
Qed.

Lemma division_count_positive (q : Q) : 1 <= division_count q.
Proof.
  unfold division_count.
  destruct (Qle_bool 0 q) eqn:E; cbn [andb]; [|lia].
  destruct (Qlt_bool q (inject_Z int_max)); [|lia].
  apply Qle_bool_iff in E. pose proof (Qfloor_resp_le _ _ E) as F.
  change (Qfloor 0) with 0 in F. lia.
Qed.

(** One round of the loop that counts the divisions, from a count that is at
    least 1: the greater of the count and of what the axis asks. *)
Lemma divisions_max (a : Z) (q : Q) :
  1 <= a ->
  (if a <? wrap_int (1 + double_to_int q) then wrap_int (1 + double_to_int q) else a)
  = Z.max a (division_count q).
Proof.
  intros Ha. unfold division_count.
  destruct (Qlt_le_dec q 0) as [N | P].
  - assert (E : Qle_bool 0 q = false).
    { destruct (Qle_bool 0 q) eqn:E; [|reflexivity].
      apply Qle_bool_iff in E. exfalso. apply (Qlt_irrefl q).
      now apply Qlt_le_trans with 0%Q. }
    rewrite E. simpl andb. cbv iota.
    pose proof (Qtruncate_negative q N) as T.
    assert (D : int_min <= double_to_int q <= 0).
    { destruct (double_to_int_cases q) as [[R ->] | [_ ->]]; unfold int_min in *; lia. }
    rewrite wrap_int_in_range by (unfold int_min, int_max in *; lia).
    destruct (Z.ltb_spec a (1 + double_to_int q)); lia.
  - rewrite (proj2 (Qle_bool_iff 0 q) P). simpl andb.
    pose proof (Qtruncate_floor q P) as T.
    pose proof (Qfloor_resp_le _ _ P) as F0. change (Qfloor 0) with 0 in F0.
    destruct (Qlt_bool q (inject_Z int_max)) eqn:E.
    + apply Qlt_bool_iff in E.
      assert (F1 : Qfloor q < int_max).
      { apply Z.lt_nge. intros F. rewrite Zle_Qle in F.
        apply (Qlt_irrefl q). apply Qlt_le_trans with (inject_Z int_max); [assumption|].
        apply Qle_trans with (inject_Z (Qfloor q)); [assumption | apply Qfloor_le]. }
      assert (D : double_to_int q = Qfloor q).
      { destruct (double_to_int_cases q) as [[_ ->] | [R _]];
          unfold int_min, int_max in *; [assumption | lia]. }
      rewrite D, wrap_int_in_range by (unfold int_min, int_max in *; lia).
      destruct (Z.ltb_spec a (1 + Qfloor q)); lia.
    + assert (F1 : int_max <= Qfloor q).
      { apply Qlt_bool_false in E. pose proof (Qfloor_resp_le _ _ E) as F.
        now rewrite Qfloor_Z in F. }
      assert (D : wrap_int (1 + double_to_int q) <= 0).
      { destruct (double_to_int_cases q) as [[R ->] | [_ ->]].
        - replace (Qtruncate q) with int_max by lia. vm_compute. discriminate.
        - vm_compute. discriminate. }
      destruct (Z.ltb_spec a (wrap_int (1 + double_to_int q))); lia.
Qed.

Lemma fold_max_ge (l : list Z) (a : Z) : a <= fold_left Z.max l a.
Proof.
  revert a; induction l as [|x l IH]; intros a; simpl; [lia|].
  specialize (IH (Z.max a x)). lia.
Qed.

Lemma fold_max_In (l : list Z) (a x : Z) : In x l -> x <= fold_left Z.max l a.
Proof.
  revert a; induction l as [|y l IH]; intros a; simpl; [tauto|].
  intros [-> | Hin].
  - pose proof (fold_max_ge l (Z.max a x)). lia.
  - now apply IH.
Qed.

(** The loop that counts the divisions is a running maximum of what the
    axes ask. *)
Lemma divisions_fold (factor : Q) (diff : list Q) (l : list nat) (a : Z) :
  1 <= a ->
  fold_left (divisions_step factor diff) l a
  = fold_left Z.max
      (map (fun i => division_count
                       (Qabs (value diff i) / (factor * resolution (component i)))) l)
      a.
Proof.
  revert a; induction l as [|i l IH]; intros a Ha; simpl; [reflexivity|].
  unfold divisions_step at 2. cbv zeta. rewrite divisions_max by assumption.
  apply IH. lia.
Qed.

Lemma findDifferenceStep_fold (s1 s2 : State) (rho : Q) :
  fst (findDifferenceStep s1 s2 rho)
  = fold_left Z.max
      (map (fun i => division_count (Qabs (value (find_diff s1 s2) i)
                                     / (rho * resolution (component i))))
           (seq 0 m_stateDimension))
      1.
Proof. unfold findDifferenceStep; simpl fst. apply divisions_fold. lia. Qed.

Lemma findDifferenceStep_nd_positive (s1 s2 : State) (rho : Q) :
  1 <= fst (findDifferenceStep s1 s2 rho).
Proof. rewrite findDifferenceStep_fold. apply fold_max_ge. Qed.

Lemma findDifferenceStep_nd_ge (s1 s2 : State) (rho : Q) (i : nat) :
  (i < m_stateDimension)%nat ->
  division_count (Qabs (value (find_diff s1 s2) i) / (rho * resolution (component i)))
  <= fst (findDifferenceStep s1 s2 rho).
Proof.
  intros Hi. rewrite findDifferenceStep_fold. apply fold_max_In.
  apply (in_map (fun i => division_count
                            (Qabs (value (find_diff s1 s2) i)
                             / (rho * resolution (component i))))).
  apply in_seq. lia.
Qed.

Lemma fold_max_le (l : list Z) (a b : Z) :
  a <= b -> (forall x, In x l -> x <= b) -> fold_left Z.max l a <= b.
Proof.
  revert a; induction l as [|y l IH]; intros a Ha Hl; simpl; [assumption|].
  apply IH.
  - pose proof (Hl y (or_introl eq_refl)). lia.
  - intros x Hx. apply Hl. now right.
Qed.

Lemma division_count_int (q : Q) : division_count q <= int_max.
Proof.
  unfold division_count.
  destruct (Qle_bool 0 q && Qlt_bool q (inject_Z int_max)) eqn:E;
    [|unfold int_max; lia].
  apply andb_true_iff in E. destruct E as [_ E]. apply Qlt_bool_iff in E.
  pose proof (Qfloor_le q) as F.
  assert (L : (inject_Z (Qfloor q) < inject_Z int_max)%Q)
    by (eapply Qle_lt_trans; eassumption).
  rewrite <- Zlt_Qlt in L. lia.
Qed.

(** The number of divisions is an [int]. *)
Lemma findDifferenceStep_nd_int (s1 s2 : State) (rho : Q) :
  fst (findDifferenceStep s1 s2 rho) <= int_max.
Proof.
  rewrite findDifferenceStep_fold. apply fold_max_le; [unfold int_max; lia|].
  intros x Hx. apply in_map_iff in Hx. destruct Hx as [i [<- _]].
  apply division_count_int.
Qed.

Lemma findDifferenceStep_step (s1 s2 : State) (rho : Q) (i : nat) :
  (i < m_stateDimension)%nat ->
  value (snd (findDifferenceStep s1 s2 rho)) i
  = (spec_diff s1 s2 i / inject_Z (fst (findDifferenceStep s1 s2 rho)))%Q.
Proof.
  intros Hi. unfold findDifferenceStep. simpl fst. simpl snd.
  set (nd := fold_left (divisions_step rho (find_diff s1 s2)) (seq 0 m_stateDimension) 1).
  unfold value at 1.
  rewrite (nth_indep _ 0%Q (0 / inject_Z nd)%Q)
    by (rewrite length_map; unfold find_diff; now rewrite fill_values_length).
  rewrite (map_nth (fun x => (x / inject_Z nd)%Q)).
  fold (value (find_diff s1 s2) i). now rewrite find_diff_value.
Qed.

Lemma inject_Z_nd_positive (s1 s2 : State) (rho : Q) :
  (0 < inject_Z (fst (findDifferenceStep s1 s2 rho)))%Q.
Proof.
  pose proof (findDifferenceStep_nd_positive s1 s2 rho).
  change (inject_Z 0 < inject_Z (fst (findDifferenceStep s1 s2 rho)))%Q.
  rewrite <- Zlt_Qlt. lia.
Qed.

(** C9. Over exact arithmetic, [nd] steps from [s1] end at [s2] on a linear
    axis, and at [s2] up to whole turns on a wrapping axis.  The shortest
    angular distance of the [angles] package is taken by its contract: it
    leads from [a] to [b] up to whole turns of [two_pi]. *)
Theorem endpoint_closure (two_pi : Q) (s1 s2 : State) (rho : Q) (i : nat) :
  (forall a b : Q, exists k : Z,
     (a + shortest_angular_distance a b == b + inject_Z k * two_pi)%Q) ->
  (i < m_stateDimension)%nat ->
  (type (component i) = LINEAR ->
     (value s1 i + inject_Z (fst (findDifferenceStep s1 s2 rho))
                   * value (snd (findDifferenceStep s1 s2 rho)) i
      == value s2 i)%Q) /\
  (type (component i) = WRAPPING_ANGLE ->
     exists k : Z,
       (value s1 i + inject_Z (fst (findDifferenceStep s1 s2 rho))
                     * value (snd (findDifferenceStep s1 s2 rho)) i
        == value s2 i + inject_Z k * two_pi)%Q).
Proof.
  intros shortest_angular_distance_turns Hi.
  rewrite findDifferenceStep_step by assumption.
  pose proof (inject_Z_nd_positive s1 s2 rho) as Hn.
  set (n := inject_Z (fst (findDifferenceStep s1 s2 rho))) in *.
  assert (Hn0 : ~ (n == 0)%Q) by (intros Z0; rewrite Z0 in Hn; discriminate).
  assert (E : (value s1 i + n * (spec_diff s1 s2 i / n)
               == value s1 i + spec_diff s1 s2 i)%Q) by (field; assumption).
  unfold spec_diff, spec_shortest_delta in *. split; intros Ht; rewrite Ht in E.
  - rewrite Ht, E. ring.
  - destruct (shortest_angular_distance_turns (value s1 i) (value s2 i)) as [k Hk].
    exists k. rewrite Ht, E. exact Hk.
Qed.

(** ** Properties of the validators *)

(** When the loop drains the queue, every index of every queued range has
    been tested valid, wherever the midpoints fell. *)
Lemma subdivision_loop_sound (s1 : State) (step : list Q) (fuel : nat) :
  forall pos : list (Z * Z),
  subdivision_loop fuel s1 step pos = Some true ->
  forall lo hi k, In (lo, hi) pos -> lo <= k <= hi ->
    isValid (grid_state s1 step k) = true.
Proof.
  induction fuel as [|fuel IH]; intros [|x rest]; simpl subdivision_loop.
  - intros _ lo hi k [].
  - discriminate.
  - intros _ lo hi k [].
  - set (mid := Z.quot (wrap_int (fst x + snd x)) 2).
    destruct (isValid (grid_state s1 step mid)) eqn:Hmid; simpl negb; cbv iota;
      [|discriminate].
    intros Hrest lo hi k Hin Hk. specialize (IH _ Hrest).
    destruct Hin as [-> | Hin].
    + simpl fst in *; simpl snd in *.
      destruct (Z.lt_trichotomy k mid) as [Lt | [-> | Gt]].
      * apply (IH lo (mid - 1) k); [|lia].
        apply in_or_app; right. unfold push_halves; simpl fst.
        destruct (Z.ltb_spec lo mid); [|lia]. now left.
      * assumption.
      * apply (IH (mid + 1) hi k); [|lia].
        apply in_or_app; right. unfold push_halves; simpl snd.
        apply in_or_app; right. rewrite Z.gtb_ltb.
        destruct (Z.ltb_spec mid hi); [|lia]. now left.
    + apply (IH lo hi k); [|assumption]. apply in_or_app; now left.
Qed.

(** The queue that [checkMotionSubdivision] starts from. *)
Lemma checkMotionSubdivision_true (s1 s2 : State) :
  checkMotionSubdivision s1 s2 = true ->
  isValid s2 = true /\
  subdivision_loop (Z.to_nat (fst (findDifferenceStep s1 s2 1))) s1
    (snd (findDifferenceStep s1 s2 1))
    (if fst (findDifferenceStep s1 s2 1) >=? 2
     then [(1, fst (findDifferenceStep s1 s2 1) - 1)] else [])
  = Some true.
Proof.
  unfold checkMotionSubdivision.
  destruct (isValid s2); simpl negb; cbv iota; [|discriminate].
  destruct (findDifferenceStep s1 s2 1) as [nd step]; simpl fst; simpl snd.
  destruct (subdivision_loop (Z.to_nat nd) s1 step
              (if nd >=? 2 then [(1, nd - 1)] else [])) as [[|]|];
    [intros _; split; reflexivity | discriminate | discriminate].
Qed.

Lemma checkMotionSubdivision_inside (s1 s2 : State) (k : Z) :
  checkMotionSubdivision s1 s2 = true ->
  1 <= k <= fst (findDifferenceStep s1 s2 1) - 1 ->
  isValid (grid_state s1 (snd (findDifferenceStep s1 s2 1)) k) = true.
Proof.
  intros Hacc Hk. destruct (checkMotionSubdivision_true s1 s2 Hacc) as [_ Hloop].
  apply (subdivision_loop_sound _ _ _ _ Hloop 1
           (fst (findDifferenceStep s1 s2 1) - 1) k); [|assumption].
  destruct (Z.geb_spec (fst (findDifferenceStep s1 s2 1)) 2); [now left | lia].
Qed.

(** C1. When the bisection validator accepts an edge, its right end is
    valid and so is the state of every grid index strictly inside, 1 to
    [nd - 1], of the subdivision at factor 1.0; the validity of [s1] is
    not needed for this. *)
Theorem checkMotionSubdivision_sound (s1 s2 : State) :
  checkMotionSubdivision s1 s2 = true ->
  isValid s2 = true /\
  forall k, 1 <= k <= fst (findDifferenceStep s1 s2 1) - 1 ->
    isValid (grid_state s1 (snd (findDifferenceStep s1 s2 1)) k) = true.
Proof.
  intros Hacc. split.
  - apply (checkMotionSubdivision_true s1 s2 Hacc).
  - intros k. now apply checkMotionSubdivision_inside.
Qed.

Lemma inject_Z_pred (j : Z) : (inject_Z j - 1)%Q = inject_Z (j - 1).
Proof.
  unfold Qminus, Qplus, inject_Z; simpl. rewrite Z.mul_1_r. reflexivity.
Qed.

(** What the incremental loop leaves behind, from index [j] on: either
    every remaining index is valid and the outputs are untouched, or it
    stops at the first invalid index and reports the one before. *)
Lemma incremental_loop_outcome (s1 : State) (step : list Q) (nd : Z) (n : nat) :
  forall (j : Z) (lvs : option State) (lvt : option Q) (asked : list State),
  let r := incremental_loop s1 step nd n j lvs lvt asked in
  (ok r = true /\
   (forall k, j <= k < j + Z.of_nat n -> isValid (grid_state s1 step k) = true) /\
   out_lastValidState r = lvs /\ out_lastValidTime r = lvt)
  \/
  (ok r = false /\
   exists j', j <= j' < j + Z.of_nat n /\
     (forall k, j <= k < j' -> isValid (grid_state s1 step k) = true) /\
     isValid (grid_state s1 step j') = false /\
     out_lastValidState r
     = match lvs with Some _ => Some (grid_state s1 step (j' - 1)) | None => None end /\
     out_lastValidTime r
     = match lvt with Some _ => Some (inject_Z (j' - 1) / inject_Z nd)%Q | None => None end).
Proof.
  induction n as [|n IH]; intros j lvs lvt asked; cbn zeta.
  - left. simpl. split; [reflexivity|]. split; [|split; reflexivity].
    intros k Hk; lia.
  - simpl incremental_loop.
    change (fill_values m_stateDimension
              (fun k => (value s1 k + inject_Z j * value step k)%Q))
      with (grid_state s1 step j).
    destruct (isValid (grid_state s1 step j)) eqn:Hj; simpl negb; cbv iota.
    + destruct (IH (j + 1) lvs lvt (asked ++ [grid_state s1 step j]))
        as [(Hok & Hall & Hs & Ht) | (Hok & j' & Hj' & Hall & Hinv & Hs & Ht)].
      * left. split; [assumption|]. split; [|split; assumption].
        intros k Hk. destruct (Z.eq_dec k j) as [-> | Hne]; [assumption|].
        apply Hall; lia.
      * right. split; [assumption|]. exists j'.
        split; [lia|]. split; [|split; [assumption | split; assumption]].
        intros k Hk. destruct (Z.eq_dec k j) as [-> | Hne]; [assumption|].
        apply Hall; lia.
    + right. split; [reflexivity|]. exists j. simpl.
      split; [lia|]. split; [intros k Hk; lia|]. split; [assumption|].
      split; [|reflexivity].
      destruct lvs; [|reflexivity]. rewrite inject_Z_pred. reflexivity.
Qed.

(** C8. When [s2] is invalid the incremental validator returns false at
    once: [s2] is the only state it has tested, and both output parameters
    hold what they held. *)
Theorem checkMotionIncremental_invalid_endpoint
    (s1 s2 : State) (lastValidState : option State) (lastValidTime : option Q) :
  isValid s2 = false ->
  checkMotionIncremental s1 s2 lastValidState lastValidTime
  = mkIncrementalOutcome false lastValidState lastValidTime [s2].
Proof.
  intros H. unfold checkMotionIncremental. rewrite H. reflexivity.
Qed.

Lemma Forall2_map_seq {A : Type} (R : A -> A -> Prop) (d : A) (s : list A) :
  forall f : nat -> A,
  (forall i, (i < length s)%nat -> R (f i) (nth i s d)) ->
  Forall2 R (map f (seq 0 (length s))) s.
Proof.
  induction s as [|x s IH]; intros f Hf; simpl; [constructor|].
  constructor.
  - apply (Hf 0%nat). simpl; lia.
  - rewrite <- seq_shift, map_map. apply IH.
    intros i Hi. apply (Hf (S i)). simpl; lia.
Qed.

(** The grid state of index 0 holds the values of [s1]. *)
Lemma grid_state_zero (s1 : State) (step : list Q) :
  length s1 = m_stateDimension -> Forall2 Qeq (grid_state s1 step 0) s1.
Proof.
  intros Hlen. unfold grid_state, fill_values. rewrite <- Hlen.
  apply Forall2_map_seq with (d := 0%Q). intros i _. unfold value. ring.
Qed.

(** C2. Let the incremental validator start from a valid [s1], find [s2]
    valid and yet return false, which is when it writes its outputs.  Then
    there is an index [j] of 1 .. [nd - 1], the first whose grid state is
    invalid: every grid state of index at most [j - 1] is valid, the
    state of index [j] is not, [lastValidState] holds [s1 + (j-1) * step]
    and [lastValidTime] holds [(j-1) / nd], each where the caller passed a
    buffer for it.  Validity is taken to depend on the values of a state
    only. *)
Theorem checkMotionIncremental_last_valid
    (s1 s2 : State) (lastValidState : option State) (lastValidTime : option Q) :
  (forall s s', Forall2 Qeq s s' -> isValid s = isValid s') ->
  length s1 = m_stateDimension ->
  isValid s1 = true ->
  isValid s2 = true ->
  ok (checkMotionIncremental s1 s2 lastValidState lastValidTime) = false ->
  exists j : Z,
    1 <= j <= fst (findDifferenceStep s1 s2 1) - 1 /\
    (forall k, 0 <= k <= j - 1 ->
       isValid (grid_state s1 (snd (findDifferenceStep s1 s2 1)) k) = true) /\
    isValid (grid_state s1 (snd (findDifferenceStep s1 s2 1)) j) = false /\
    out_lastValidState (checkMotionIncremental s1 s2 lastValidState lastValidTime)
    = match lastValidState with
      | Some _ => Some (grid_state s1 (snd (findDifferenceStep s1 s2 1)) (j - 1))
      | None => None
      end /\
    out_lastValidTime (checkMotionIncremental s1 s2 lastValidState lastValidTime)
    = match lastValidTime with
      | Some _ =>
          Some (inject_Z (j - 1) / inject_Z (fst (findDifferenceStep s1 s2 1)))%Q
      | None => None
      end.
Proof.
  intros Hvalues Hlen Hs1 Hs2. unfold checkMotionIncremental. rewrite Hs2.
  simpl negb; cbv iota.
  destruct (findDifferenceStep s1 s2 1) as [nd step]; simpl fst; simpl snd.
  intros Hfalse.
  destruct (incremental_loop_outcome s1 step nd (Z.to_nat (nd - 1)) 1
              lastValidState lastValidTime [s2])
    as [(Hok & _) | (_ & j & Hj & Hall & Hinv & Hs & Ht)].
  - rewrite Hok in Hfalse; discriminate.
  - exists j. split; [lia|]. split; [|split; [assumption | split; assumption]].
    intros k Hk. destruct (Z.eq_dec k 0) as [-> | Hne].
    + rewrite (Hvalues _ s1); [assumption | now apply grid_state_zero].
    + apply Hall; lia.
Qed.

(** ** Properties of checkPath *)

Lemma checkPath_loop_false (sts : list State) (n j : nat) :
  checkPath_loop sts n j false = false.
Proof. destruct n; reflexivity. Qed.

Lemma checkPath_loop_true (sts : list State) (n : nat) :
  forall j,
  checkPath_loop sts n j true = true <->
  (forall i, (j <= i < j + n)%nat ->
     checkMotionSubdivision (nth i sts []) (nth (i + 1) sts []) = true).
Proof.
  induction n as [|n IH]; intros j; simpl.
  - split; [intros _ i Hi; lia | reflexivity].
  - destruct (checkMotionSubdivision (nth j sts []) (nth (j + 1) sts [])) eqn:E;
      simpl negb; cbv iota.
    + rewrite IH. split; intros H i Hi.
      * destruct (Nat.eq_dec i j) as [-> | Hne]; [assumption | apply H; lia].
      * apply H; lia.
    + rewrite checkPath_loop_false. split; [discriminate|].
      intros H. rewrite <- E. apply H; lia.
Qed.

(** C5, as the code has it.  [checkPath] returns false on a null path and
    true on an empty one; on a path with at least one state it returns
    true exactly when the first state is valid and every edge between
    consecutive states passes the bisection validator. *)
Theorem checkPath_result :
  checkPath None = false /\
  checkPath (Some (mkPathKinematic [])) = true /\
  forall (s : State) (rest : list State),
    checkPath (Some (mkPathKinematic (s :: rest))) = true <->
    (isValid s = true /\
     forall j, (j + 1 < length (s :: rest))%nat ->
       checkMotionSubdivision (nth j (s :: rest) []) (nth (j + 1) (s :: rest) []) = true).
Proof.
  split; [reflexivity|]. split; [reflexivity|].
  intros s rest. unfold checkPath. simpl states. simpl length.
  change (0 <? S (length rest))%nat with true. cbv iota.
  change (nth 0 (s :: rest) []) with s.
  destruct (isValid s).
  - rewrite checkPath_loop_true. split.
    + intros H. split; [reflexivity|]. intros j Hj. apply H; simpl; lia.
    + intros [_ H] i Hi. apply H; simpl in *; lia.
  - split; [discriminate | intros [H _]; discriminate].
Qed.

(** ** Properties of getMotionStates *)

Lemma array_set_length {A : Type} (a : list A) (i : nat) (v : A) :
  length (array_set a i v) = length a.
Proof.
  revert i; induction a as [|x a IH]; intros [|i]; simpl; try reflexivity.
  now rewrite IH.
Qed.

Lemma array_set_same {A : Type} (a : list A) (i : nat) (v : A) :
  (i < length a)%nat -> nth_error (array_set a i v) i = Some v.
Proof.
  revert i; induction a as [|x a IH]; intros [|i]; simpl; try lia; [reflexivity|].
  intros H. apply IH. lia.
Qed.

Lemma array_set_other {A : Type} (a : list A) (i k : nat) (v : A) :
  k <> i -> nth_error (array_set a i v) k = nth_error a k.
Proof.
  revert i k; induction a as [|x a IH]; intros [|i] [|k]; simpl; try reflexivity;
    try congruence.
  intros H. apply IH. congruence.
Qed.

Lemma resize_length (v : list (option State)) (n : nat) : length (resize v n) = n.
Proof.
  unfold resize. rewrite length_app, length_firstn, repeat_length. lia.
Qed.

Lemma writable_array_set (alloc : bool) (sts : list (option State)) (i : nat) (st : State) :
  writable alloc sts -> writable alloc (array_set sts i (Some st)).
Proof.
  intros [H | H]; [now left | right].
  revert i; induction H as [|x l Hx Hl IH]; intros [|i]; simpl; constructor;
    try assumption; try discriminate. apply IH.
Qed.

Lemma writable_slot (alloc : bool) (sts : list (option State)) (j : nat) :
  writable alloc sts -> (j < length sts)%nat ->
  exists st,
    nth_error (if alloc then array_set sts j (Some (new_State m_stateDimension)) else sts) j
    = Some (Some st).
Proof.
  intros [-> | H] Hj.
  - eexists. now apply array_set_same.
  - destruct alloc; [eexists; now apply array_set_same|].
    destruct (nth_error sts j) as [[st|]|] eqn:E.
    + now exists st.
    + apply nth_error_In in E. rewrite Forall_forall in H. now destruct (H _ E).
    + apply nth_error_None in E. lia.
Qed.

(** The loop over the states in between, entered with [added = j]: it
    fills the slots [j .. j + n - 1] that exist and counts them. *)
Lemma motion_states_loop_outcome (s1 : State) (step : list Q) (alloc : bool) (n : nat) :
  forall (j : nat) (sts : list (option State)),
  writable alloc sts ->
  exists out,
    motion_states_loop s1 step alloc n j j sts
    = Some (Nat.min (j + n) (Nat.max j (length sts)), out) /\
    length out = length sts /\
    writable alloc out /\
    forall i,
      nth_error out i
      = if ((j <=? i) && (i <? j + n) && (i <? length sts))%nat
        then Some (Some (grid_state s1 step (Z.of_nat i)))
        else nth_error sts i.
Proof.
  induction n as [|n IH]; intros j sts W; simpl motion_states_loop.
  - exists sts. split; [f_equal; f_equal; lia|]. split; [reflexivity|].
    split; [assumption|].
    intros i. destruct (Nat.leb_spec j i), (Nat.ltb_spec i (j + 0)); simpl; try reflexivity; lia.
  - destruct (Nat.ltb_spec j (length sts)) as [Hj | Hj].
    + destruct (writable_slot alloc sts j W Hj) as [st Hst]. rewrite Hst.
      set (sts1 := if alloc then array_set sts j (Some (new_State m_stateDimension)) else sts) in *.
      assert (L1 : length sts1 = length sts)
        by (unfold sts1; destruct alloc; [apply array_set_length | reflexivity]).
      assert (W1 : writable alloc sts1)
        by (unfold sts1; destruct alloc; [now apply writable_array_set | assumption]).
      change (fill_values m_stateDimension
                (fun k => (value s1 k + inject_Z (Z.of_nat j) * value step k)%Q))
        with (grid_state s1 step (Z.of_nat j)).
      set (sts2 := array_set sts1 j (Some (grid_state s1 step (Z.of_nat j)))).
      assert (L2 : length sts2 = length sts)
        by (unfold sts2; now rewrite array_set_length).
      destruct (IH (S j) sts2 (writable_array_set _ _ _ _ W1)) as (out & E & Lo & Wo & C).
      exists out. rewrite E, L2. split; [f_equal; f_equal; lia|].
      split; [congruence|]. split; [assumption|].
      intros i. rewrite C, L2.
      destruct (Nat.eq_dec i j) as [-> | Hne].
      * destruct (Nat.leb_spec (S j) j); [lia|]. simpl.
        unfold sts2. rewrite array_set_same by lia.
        destruct (Nat.leb_spec j j), (Nat.ltb_spec j (j + S n)), (Nat.ltb_spec j (length sts));
          simpl; try reflexivity; lia.
      * unfold sts2. rewrite array_set_other by assumption.
        assert (E1 : nth_error sts1 i = nth_error sts i)
          by (unfold sts1; destruct alloc; [now apply array_set_other | reflexivity]).
        rewrite E1.
        destruct (Nat.leb_spec (S j) i), (Nat.leb_spec j i),
                 (Nat.ltb_spec i (S j + n)), (Nat.ltb_spec i (j + S n)),
                 (Nat.ltb_spec i (length sts)); simpl; try reflexivity; lia.
    + exists sts. split; [f_equal; f_equal; lia|]. split; [reflexivity|].
      split; [assumption|].
      intros i. destruct (Nat.leb_spec j i), (Nat.ltb_spec i (j + S n)),
                         (Nat.ltb_spec i (length sts)); simpl; try reflexivity; lia.
Qed.

Lemma alloc_slot_length (alloc : bool) (sts : list (option State)) (j : nat) :
  length (if alloc then array_set sts j (Some (new_State m_stateDimension)) else sts)
  = length sts.
Proof. destruct alloc; [apply array_set_length | reflexivity]. Qed.

Lemma alloc_slot_other (alloc : bool) (sts : list (option State)) (j k : nat) :
  k <> j ->
  nth_error (if alloc then array_set sts j (Some (new_State m_stateDimension)) else sts) k
  = nth_error sts k.
Proof. intros H. destruct alloc; [now apply array_set_other | reflexivity]. Qed.

Lemma alloc_slot_writable (alloc : bool) (sts : list (option State)) (j : nat) :
  writable alloc sts ->
  writable alloc (if alloc then array_set sts j (Some (new_State m_stateDimension)) else sts).
Proof. intros W. destruct alloc; [now apply writable_array_set | assumption]. Qed.

(** The outcome of a call that writes through no null slot: the count and
    the contents of every slot. *)
Lemma getMotionStates_outcome (s1 s2 : State) (sts : list (option State)) (alloc : bool) :
  writable alloc sts ->
  let nd := Z.to_nat (fst (findDifferenceStep s1 s2 1)) in
  let step := snd (findDifferenceStep s1 s2 1) in
  let L := if alloc then S nd else length sts in
  exists out,
    getMotionStates s1 s2 sts alloc = Some (Nat.min L (S nd), out) /\
    length out = L /\
    (forall j, (j < L)%nat ->
       nth_error out j = motion_slot s1 s2 step nd (nth_error sts j) j).
Proof.
  intros W nd step L.
  assert (Hnd : 1 <= fst (findDifferenceStep s1 s2 1))
    by apply findDifferenceStep_nd_positive.
  subst nd step L. unfold getMotionStates.
  destruct (findDifferenceStep s1 s2 1) as [ndz step]; simpl fst in *; simpl snd in *.
  replace (Z.to_nat (ndz + 1)) with (S (Z.to_nat ndz)) by lia.
  replace (Z.to_nat (ndz - 1)) with (Z.to_nat ndz - 1)%nat by lia.
  assert (Hn : (1 <= Z.to_nat ndz)%nat) by lia.
  set (nd := Z.to_nat ndz) in *. clearbody nd. clear Hnd ndz.
  set (sts1 := if alloc
               then array_set (resize sts (S nd)) 0 (Some (new_State m_stateDimension))
               else sts).
  set (L := if alloc then S nd else length sts).
  assert (L1 : length sts1 = L).
  { unfold sts1, L. destruct alloc; [|reflexivity].
    now rewrite array_set_length, resize_length. }
  assert (W1 : writable alloc sts1).
  { unfold sts1. destruct alloc; [now left | assumption]. }
  assert (O1 : forall k, alloc = false -> nth_error sts1 k = nth_error sts k).
  { intros k Ha. unfold sts1. now rewrite Ha. }
  assert (Hst0 : (0 < L)%nat -> exists st0, nth_error sts1 0 = Some (Some st0)).
  { intros HL. unfold sts1. destruct alloc.
    - eexists. apply array_set_same. rewrite resize_length. lia.
    - destruct W as [W | W]; [discriminate|].
      destruct (nth_error sts 0) as [[st|]|] eqn:E.
      + now exists st.
      + apply nth_error_In in E. rewrite Forall_forall in W. now destruct (W _ E).
      + apply nth_error_None in E. unfold L in HL. lia. }
  clearbody sts1.
  destruct (Nat.ltb_spec 0 (length sts1)) as [Hpos | Hzero].
  - destruct (Hst0 ltac:(lia)) as [st0 E0]. rewrite E0. unfold copyState.
    set (sts2 := array_set sts1 0 (Some s1)).
    assert (L2 : length sts2 = L) by (unfold sts2; now rewrite array_set_length).
    assert (W2 : writable alloc sts2) by now apply writable_array_set.
    destruct (motion_states_loop_outcome s1 step alloc (nd - 1) 1 sts2 W2)
      as (out3 & E3 & L3 & W3 & C3).
    rewrite E3, L2 in *.
    replace (Nat.min (1 + (nd - 1)) (Nat.max 1 L)) with (Nat.min nd L) by lia.
    rewrite L3.
    assert (C0 : nth_error out3 0 = Some (Some s1)).
    { rewrite C3. change (1 <=? 0)%nat with false. cbn [andb].
      unfold sts2. apply array_set_same. lia. }
    assert (Cin : forall j, (1 <= j < nd)%nat -> (j < L)%nat ->
                  nth_error out3 j = Some (Some (grid_state s1 step (Z.of_nat j)))).
    { intros j Hj HjL. rewrite C3.
      destruct (Nat.leb_spec 1 j), (Nat.ltb_spec j (1 + (nd - 1))), (Nat.ltb_spec j L);
        simpl; try reflexivity; lia. }
    assert (Cout : forall j, (nd <= j)%nat -> nth_error out3 j = nth_error sts1 j).
    { intros j Hj. rewrite C3.
      destruct (Nat.leb_spec 1 j), (Nat.ltb_spec j (1 + (nd - 1))), (Nat.ltb_spec j L);
        simpl; try lia; unfold sts2; apply array_set_other; lia. }
    destruct (Nat.ltb_spec (Nat.min nd L) L) as [Hroom | Hfull].
    + replace (Nat.min nd L) with nd by lia.
      destruct (writable_slot alloc out3 nd W3 ltac:(lia)) as [st Est]. rewrite Est.
      eexists. split; [f_equal; f_equal; lia|].
      split; [now rewrite array_set_length, alloc_slot_length|].
      intros j Hj. unfold motion_slot.
      destruct (Nat.eqb_spec j 0) as [-> | Hj0].
      * rewrite array_set_other, alloc_slot_other by lia. assumption.
      * destruct (Nat.ltb_spec j nd) as [Hlt | Hge].
        -- rewrite array_set_other, alloc_slot_other by lia. apply Cin; lia.
        -- destruct (Nat.eqb_spec j nd) as [-> | Hne].
           ++ apply array_set_same. rewrite alloc_slot_length. lia.
           ++ rewrite array_set_other, alloc_slot_other by lia.
              rewrite Cout by lia. apply O1.
              destruct alloc; [unfold L in Hj; lia | reflexivity].
    + exists out3. split; [f_equal; f_equal; lia|]. split; [assumption|].
      intros j Hj. unfold motion_slot.
      destruct (Nat.eqb_spec j 0) as [-> | Hj0]; [assumption|].
      destruct (Nat.ltb_spec j nd) as [Hlt | Hge]; [|lia].
      apply Cin; lia.
  - assert (Hloop : forall n j, motion_states_loop s1 step alloc n j 0 sts1
                                = Some (0%nat, sts1)).
    { intros [|n] j; simpl; [reflexivity|].
      destruct (Nat.ltb_spec 0 (length sts1)); [lia | reflexivity]. }
    rewrite Hloop.
    destruct (Nat.ltb_spec 0 (length sts1)); [lia|].
    exists sts1. split; [f_equal; f_equal; lia|]. split; [assumption|].
    intros j Hj; lia.
Qed.


(** ** Properties of the repair of input states *)

(** A state within bounds and valid is found at once. *)
Lemma searchValidNearby_accepts (state near : State) (rho : list Q) (attempts : nat)
    (sc : RNG) :
  satisfiesBounds near = true -> isValid near = true ->
  searchValidNearby state near rho attempts sc = (true, near).
Proof.
  intros Hb Hv. unfold searchValidNearby, copyState. rewrite Hb. simpl negb. cbv iota.
  rewrite Hv. reflexivity.
Qed.

(** When the search fails, the block leaves the state as it was and sends
    the warning. *)
Lemma fix_state_failure (st : State) (rho : list Q) (attempts : nat) (sc : RNG)
    (m1 m2 : Message) (m3 : State -> list Q -> Message) (m4 : Message) :
  fst (searchValidNearby (new_State m_stateDimension) st rho attempts sc) = false ->
  fst (fix_state st rho attempts sc m1 m2 m3 m4) = st /\
  In m4 (snd (fix_state st rho attempts sc m1 m2 m3 m4)).
Proof.
  intros Hfail. unfold fix_state.
  destruct (satisfiesBounds st) eqn:Hb.
  - destruct (isValid st) eqn:Hv.
    + rewrite searchValidNearby_accepts in Hfail by assumption. discriminate.
    + simpl.
      destruct (searchValidNearby (new_State m_stateDimension) st rho attempts sc)
        as [found temp]. simpl in Hfail. subst found. simpl.
      split; [reflexivity | right; right; left; reflexivity].
  - simpl.
    destruct (searchValidNearby (new_State m_stateDimension) st rho attempts sc)
      as [found temp]. simpl in Hfail. subst found. simpl.
    split; [reflexivity | right; right; left; reflexivity].
Qed.

Lemma fix_start_states_failure (rhoStart : list Q) (attempts : nat)
    (sts : list (option State)) :
  forall (i0 k : nat) (st : State),
  nth_error sts k = Some (Some st) ->
  fst (searchValidNearby (new_State m_stateDimension) st rhoStart attempts
         (samplers (i0 + k))) = false ->
  nth_error (fst (fix_start_states sts i0 rhoStart attempts)) k = Some (Some st) /\
  In (warn_unable_fix_start (i0 + k)) (snd (fix_start_states sts i0 rhoStart attempts)).
Proof.
  induction sts as [|p sts IH]; intros i0 k st Hk Hfail.
  - destruct k; discriminate.
  - simpl fix_start_states.
    destruct k as [|k].
    + simpl in Hk. injection Hk as ->. rewrite Nat.add_0_r in Hfail |- *.
      destruct (fix_state_failure st rhoStart attempts (samplers i0)
                  msg_initial_not_valid msg_initial_not_within_bounds
                  msg_attempt_fix_initial (warn_unable_fix_start i0) Hfail) as [E I].
      destruct (fix_state st rhoStart attempts (samplers i0) _ _ _ _) as [st' said1].
      simpl in E, I. subst st'.
      destruct (fix_start_states sts (S i0) rhoStart attempts) as [rest' said2].
      simpl. split; [reflexivity|]. apply in_or_app; now left.
    + simpl in Hk. replace (i0 + S k)%nat with (S i0 + k)%nat in * by lia.
      destruct (IH (S i0) k st Hk Hfail) as [E I].
      destruct (fix_start_states sts (S i0) rhoStart attempts) as [rest' said2].
      simpl in E, I.
      destruct p as [st1|].
      * destruct (fix_state st1 rhoStart attempts (samplers i0) _ _ _ _) as [st' said1].
        simpl. split; [assumption|]. apply in_or_app; now right.
      * simpl. split; assumption.
Qed.

(** C7, as the code has it.  When the search for a valid state near a
    start state or the goal state fails, [fixInvalidInputStates] leaves
    that state with its original values, whether or not they lie within
    the bounds, and reports the failure with a warning; only the scratch
    state of the search is clipped into the bounds. *)
Theorem fixInvalidInputStates_failure_frame
    (q : PlanningQuery) (rhoStart rhoGoal : list Q) (attempts : nat)
    (w : InputState) (st : State) :
  input_state q w = Some st ->
  fst (input_search q rhoStart rhoGoal attempts w st) = false ->
  input_state (fixInvalidInputStates q rhoStart rhoGoal attempts) w = Some st /\
  In (input_warning w) (m_msg (fixInvalidInputStates q rhoStart rhoGoal attempts)).
Proof.
  intros Hst Hfail. unfold fixInvalidInputStates.
  destruct w as [i|]; simpl in Hst, Hfail.
  - destruct (nth_error (m_startStates q) i) as [[st0|]|] eqn:Hi; try discriminate.
    injection Hst as ->.
    destruct (fix_start_states_failure rhoStart attempts (m_startStates q) 0 i st Hi Hfail)
      as [E I].
    destruct (fix_start_states (m_startStates q) 0 rhoStart attempts) as [starts said1].
    simpl in E, I.
    destruct (m_goal q) as [[[stg|]|]|];
      try destruct (fix_state stg rhoGoal attempts _ _ _ _ _) as [stg' saidg];
      simpl; rewrite E; (split; [reflexivity|]);
      apply in_or_app; right; apply in_or_app; now left.
  - destruct (m_goal q) as [[[stg|]|]|] eqn:Hg; try discriminate.
    injection Hst as ->.
    destruct (fix_state_failure st rhoGoal attempts (samplers (length (m_startStates q)))
                msg_goal_not_valid msg_goal_not_within_bounds
                msg_attempt_fix_goal warn_unable_fix_goal Hfail) as [E I].
    destruct (fix_start_states (m_startStates q) 0 rhoStart attempts) as [starts said1].
    destruct (fix_state st rhoGoal attempts _ _ _ _ _) as [st' saidg].
    simpl in E, I. subst st'. simpl. split; [reflexivity|].
    apply in_or_app; right; apply in_or_app; now right.
Qed.

(** ** Further properties of the validators *)

Lemma queue_size_app (p q : list (Z * Z)) :
  queue_size (p ++ q) = (queue_size p + queue_size q)%nat.
Proof.
  unfold queue_size. rewrite map_app. induction (map _ p) as [|a l IH]; simpl; lia.
Qed.

(** The midpoint of a range whose indices add up without wrapping is one
    of its indices, and the halves pushed hold one index fewer. *)
Lemma push_halves_bounded (lo hi : Z) :
  0 <= lo <= hi -> hi + hi <= int_max ->
  let mid := Z.quot (wrap_int (lo + hi)) 2 in
  lo <= mid <= hi /\
  queue_bounded (push_halves (lo, hi) mid) /\
  (forall a b k, In (a, b) (push_halves (lo, hi) mid) -> a <= k <= b -> lo <= k <= hi) /\
  S (queue_size (push_halves (lo, hi) mid)) = Z.to_nat (hi - lo + 1).
Proof.
  intros Hlo Hhi. simpl.
  rewrite wrap_int_in_range by (unfold int_min, int_max in *; lia).
  assert (M : lo <= Z.quot (lo + hi) 2 <= hi)
    by (Z.to_euclidean_division_equations; lia).
  set (mid := Z.quot (lo + hi) 2) in *.
  split; [exact M|].
  unfold push_halves, queue_bounded, queue_size; simpl fst; simpl snd.
  rewrite Z.gtb_ltb.
  destruct (Z.ltb_spec lo mid), (Z.ltb_spec mid hi); simpl;
    (split; [|split]);
    try (intros a b k Hin Hk || intros a b Hin);
    repeat match goal with
           | H : _ \/ _ |- _ => destruct H
           | H : False |- _ => destruct H
           | H : (_, _) = (_, _) |- _ => injection H as <- <-
           end;
    unfold int_max in *; lia.
Qed.

(** A run on a queue without wrap-around ends within as many rounds as the
    queue holds indices, and it accepts when all of them are valid. *)
Lemma subdivision_loop_bounded (s1 : State) (step : list Q) (fuel : nat) :
  forall pos : list (Z * Z),
  queue_bounded pos -> (queue_size pos <= fuel)%nat ->
  subdivision_loop fuel s1 step pos <> None /\
  (queue_valid s1 step pos -> subdivision_loop fuel s1 step pos = Some true).
Proof.
  induction fuel as [|fuel IH]; intros [|[lo hi] rest] B Hsize;
    simpl subdivision_loop; try (split; [discriminate | reflexivity]).
  - destruct (B lo hi (or_introl eq_refl)) as [Hlo Hhi].
    unfold queue_size in Hsize; simpl in Hsize. lia.
  - destruct (B lo hi (or_introl eq_refl)) as [Hlo Hhi].
    simpl fst; simpl snd.
    destruct (push_halves_bounded lo hi Hlo Hhi) as (M & PB & PV & PS).
    set (mid := Z.quot (wrap_int (lo + hi)) 2) in *.
    assert (B' : queue_bounded (rest ++ push_halves (lo, hi) mid)).
    { intros a b Hin. apply in_app_or in Hin. destruct Hin as [Hin | Hin].
      - apply B. now right.
      - now apply PB. }
    assert (S' : (queue_size (rest ++ push_halves (lo, hi) mid) <= fuel)%nat).
    { rewrite queue_size_app. unfold queue_size in Hsize; simpl in Hsize.
      fold (queue_size rest) in Hsize. lia. }
    destruct (IH _ B' S') as [Hret Hacc].
    destruct (isValid (grid_state s1 step mid)) eqn:Hmid; simpl negb; cbv iota.
    + split; [exact Hret|]. intros V. apply Hacc.
      intros a b k Hin Hk. apply in_app_or in Hin. destruct Hin as [Hin | Hin].
      * apply (V a b k); [now right | assumption].
      * apply (V lo hi k); [now left | exact (PV a b k Hin Hk)].
    + split; [discriminate|]. intros V.
      rewrite (V lo hi mid (or_introl eq_refl) M) in Hmid. discriminate.
Qed.

Lemma subdivision_loop_nil (s1 : State) (step : list Q) (fuel : nat) :
  subdivision_loop fuel s1 step [] = Some true.
Proof. destruct fuel; reflexivity. Qed.

(** More rounds do not change the result of a run that has ended. *)
Lemma subdivision_loop_more_fuel (s1 : State) (step : list Q) (fuel : nat) :
  forall (pos : list (Z * Z)) (more : nat) (b : bool),
  subdivision_loop fuel s1 step pos = Some b ->
  subdivision_loop (fuel + more) s1 step pos = Some b.
Proof.
  induction fuel as [|fuel IH]; intros [|x rest] more b;
    rewrite ?subdivision_loop_nil; trivial.
  - discriminate.
  - simpl subdivision_loop.
    destruct (isValid (grid_state s1 step (Z.quot (wrap_int (fst x + snd x)) 2)));
      simpl negb; cbv iota; [apply IH | trivial].
Qed.

(** A queue with a range that ends where sums wrap around keeps such a
    range, round after round: the run never drains it. *)
Lemma subdivision_loop_stuck (s1 : State) (step : list Q) (hi : Z) (fuel : nat) :
  1073741824 <= hi <= int_max ->
  forall pos : list (Z * Z),
  queue_stuck hi pos -> subdivision_loop fuel s1 step pos <> Some true.
Proof.
  intros Hhi. induction fuel as [|fuel IH]; intros [|x rest] [lo [Hin Hlo]];
    simpl subdivision_loop; try discriminate; try (destruct Hin; fail).
  destruct (isValid (grid_state s1 step (Z.quot (wrap_int (fst x + snd x)) 2)));
    simpl negb; cbv iota; [|discriminate].
  apply IH. destruct Hin as [-> | Hin].
  - simpl fst; simpl snd.
    set (mid := Z.quot (wrap_int (lo + hi)) 2).
    assert (M : - 1073741824 <= mid + 1 <= hi).
    { unfold mid, wrap_int. unfold int_max in Hhi. clear - Hhi Hlo.
      Z.to_euclidean_division_equations; lia. }
    exists (mid + 1). split; [|exact M].
    apply in_or_app; right. unfold push_halves; simpl fst; simpl snd.
    apply in_or_app; right. rewrite Z.gtb_ltb.
    destruct (Z.ltb_spec mid hi); [now left | lia].
  - exists lo. split; [|exact Hlo]. apply in_or_app; now left.
Qed.

(** The queue of an edge of at most 2^30 divisions: no sum of two of its
    indices wraps around, and it holds fewer than [nd] indices. *)
Lemma initial_queue_bounded (nd : Z) :
  nd <= 1073741824 ->
  queue_bounded (if nd >=? 2 then [(1, nd - 1)] else []) /\
  Nat.le (queue_size (if nd >=? 2 then [(1, nd - 1)] else [])) (Z.to_nat nd).
Proof.
  intros Hnd. destruct (Z.geb_spec nd 2).
  - split.
    + intros lo hi [Heq | []]. injection Heq as <- <-. unfold int_max. lia.
    + unfold queue_size. simpl. lia.
  - split; [intros lo hi [] | unfold queue_size; simpl; lia].
Qed.

Lemma checkMotionSubdivision_complete (s1 s2 : State) :
  fst (findDifferenceStep s1 s2 1) <= 1073741824 ->
  isValid s2 = true ->
  (forall k, 1 <= k <= fst (findDifferenceStep s1 s2 1) - 1 ->
     isValid (grid_state s1 (snd (findDifferenceStep s1 s2 1)) k) = true) ->
  checkMotionSubdivision s1 s2 = true.
Proof.
  unfold checkMotionSubdivision.
  destruct (findDifferenceStep s1 s2 1) as [nd step]; simpl fst; simpl snd.
  intros Hnd -> Hall. simpl negb; cbv iota.
  destruct (initial_queue_bounded nd Hnd) as [B Hsize].
  destruct (subdivision_loop_bounded s1 step _ _ B Hsize) as [_ Hacc].
  rewrite Hacc; [reflexivity|].
  intros lo hi k Hin Hk. destruct (Z.geb_spec nd 2); [|contradiction].
  destruct Hin as [Heq | []]. injection Heq as <- <-. now apply Hall.
Qed.

(** The bisection validator accepts an edge of at most 2^30 divisions
    exactly when [s2] and every grid state strictly inside the edge are
    valid. *)
Theorem checkMotionSubdivision_accepts_iff (s1 s2 : State) :
  fst (findDifferenceStep s1 s2 1) <= 1073741824 ->
  (checkMotionSubdivision s1 s2 = true <->
   (isValid s2 = true /\
    forall k, 1 <= k <= fst (findDifferenceStep s1 s2 1) - 1 ->
      isValid (grid_state s1 (snd (findDifferenceStep s1 s2 1)) k) = true)).
Proof.
  intros Hnd. split.
  - intros Hacc. split.
    + apply (checkMotionSubdivision_true s1 s2 Hacc).
    + intros k. now apply checkMotionSubdivision_inside.
  - intros [Hs2 Hall]. now apply checkMotionSubdivision_complete.
Qed.

(** Beyond 2^30 divisions the queue of the bisection validator is never
    drained: the range that ends at [nd - 1] is replaced, round after
    round, by another one that ends there. *)
Lemma initial_queue_stuck (nd : Z) :
  1073741824 < nd -> queue_stuck (nd - 1) (if nd >=? 2 then [(1, nd - 1)] else []).
Proof.
  intros Hnd. destruct (Z.geb_spec nd 2); [|lia].
  exists 1. split; [now left | lia].
Qed.

(** An edge of more than 2^30 divisions is never accepted by the bisection
    validator, however many rounds its loop makes. *)
Theorem checkMotionSubdivision_never_drains (s1 s2 : State) (fuel : nat) :
  1073741824 < fst (findDifferenceStep s1 s2 1) ->
  subdivision_loop fuel s1 (snd (findDifferenceStep s1 s2 1))
    (if fst (findDifferenceStep s1 s2 1) >=? 2
     then [(1, fst (findDifferenceStep s1 s2 1) - 1)] else [])
  <> Some true.
Proof.
  intros Hnd.
  apply (subdivision_loop_stuck s1 _ (fst (findDifferenceStep s1 s2 1) - 1)).
  - pose proof (findDifferenceStep_nd_int s1 s2 1). lia.
  - now apply initial_queue_stuck.
Qed.

(** Whenever the loop of the bisection validator ends, after however many
    rounds, [checkMotionSubdivision] has the result of that run. *)
Theorem checkMotionSubdivision_run (s1 s2 : State) (fuel : nat) (b : bool) :
  isValid s2 = true ->
  subdivision_loop fuel s1 (snd (findDifferenceStep s1 s2 1))
    (if fst (findDifferenceStep s1 s2 1) >=? 2
     then [(1, fst (findDifferenceStep s1 s2 1) - 1)] else [])
  = Some b ->
  checkMotionSubdivision s1 s2 = b.
Proof.
  intros Hs2 Hrun. unfold checkMotionSubdivision. rewrite Hs2. simpl negb; cbv iota.
  pose proof (findDifferenceStep_nd_int s1 s2 1) as Hint.
  destruct (findDifferenceStep s1 s2 1) as [nd step] eqn:Hfds;
    simpl fst in *; simpl snd in *.
  destruct (Z.le_gt_cases nd 1073741824) as [Hnd | Hnd].
  - destruct (initial_queue_bounded nd Hnd) as [B Hsize].
    destruct (subdivision_loop_bounded s1 step _ _ B Hsize) as [Hret _].
    destruct (subdivision_loop (Z.to_nat nd) s1 step
                (if nd >=? 2 then [(1, nd - 1)] else [])) as [b'|] eqn:Hshort;
      [|contradiction].
    apply (subdivision_loop_more_fuel _ _ _ _ fuel) in Hshort.
    apply (subdivision_loop_more_fuel _ _ _ _ (Z.to_nat nd)) in Hrun.
    rewrite Nat.add_comm in Hrun. congruence.
  - pose proof (initial_queue_stuck nd Hnd) as St.
    assert (Hhi : 1073741824 <= nd - 1 <= int_max) by lia.
    pose proof (subdivision_loop_stuck s1 step (nd - 1) fuel Hhi _ St) as N1.
    pose proof (subdivision_loop_stuck s1 step (nd - 1) (Z.to_nat nd) Hhi _ St) as N2.
    destruct b; [contradiction|].
    destruct (subdivision_loop (Z.to_nat nd) s1 step
                (if nd >=? 2 then [(1, nd - 1)] else [])) as [[|]|];
      [contradiction | reflexivity | reflexivity].
Qed.

Lemma incremental_loop_accepts_iff (s1 : State) (step : list Q) (nd : Z) (n : nat)
    (j : Z) (lvs : option State) (lvt : option Q) (asked : list State) :
  ok (incremental_loop s1 step nd n j lvs lvt asked) = true <->
  (forall k, j <= k < j + Z.of_nat n -> isValid (grid_state s1 step k) = true).
Proof.
  destruct (incremental_loop_outcome s1 step nd n j lvs lvt asked)
    as [(Hok & Hall & _) | (Hok & j' & Hj' & _ & Hinv & _)].
  - split; [intros _; exact Hall | intros _; exact Hok].
  - split; [rewrite Hok; discriminate|].
    intros Hall. rewrite (Hall j' Hj') in Hinv. discriminate.
Qed.

Lemma checkMotionIncremental_accepts_grid
    (s1 s2 : State) (lastValidState : option State) (lastValidTime : option Q) :
  ok (checkMotionIncremental s1 s2 lastValidState lastValidTime) = true <->
  (isValid s2 = true /\
   forall k, 1 <= k <= fst (findDifferenceStep s1 s2 1) - 1 ->
     isValid (grid_state s1 (snd (findDifferenceStep s1 s2 1)) k) = true).
Proof.
  unfold checkMotionIncremental.
  destruct (findDifferenceStep s1 s2 1) as [nd step]; simpl fst; simpl snd.
  destruct (isValid s2); simpl negb; cbv iota.
  - rewrite incremental_loop_accepts_iff. split.
    + intros H. split; [reflexivity|]. intros k Hk. apply H; lia.
    + intros [_ H] k Hk. apply H; lia.
  - simpl. split; [discriminate | intros [H _]; discriminate].
Qed.

(** The incremental validator accepts an edge exactly when [s2] and every
    grid state strictly inside the edge are valid, and then it leaves both
    output parameters as they were. *)
Theorem checkMotionIncremental_accepts_iff
    (s1 s2 : State) (lastValidState : option State) (lastValidTime : option Q) :
  (ok (checkMotionIncremental s1 s2 lastValidState lastValidTime) = true <->
   (isValid s2 = true /\
    forall k, 1 <= k <= fst (findDifferenceStep s1 s2 1) - 1 ->
      isValid (grid_state s1 (snd (findDifferenceStep s1 s2 1)) k) = true)) /\
  (ok (checkMotionIncremental s1 s2 lastValidState lastValidTime) = true ->
   out_lastValidState (checkMotionIncremental s1 s2 lastValidState lastValidTime)
   = lastValidState /\
   out_lastValidTime (checkMotionIncremental s1 s2 lastValidState lastValidTime)
   = lastValidTime).
Proof.
  unfold checkMotionIncremental.
  destruct (findDifferenceStep s1 s2 1) as [nd step]; simpl fst; simpl snd.
  destruct (isValid s2); simpl negb; cbv iota.
  - split.
    + rewrite incremental_loop_accepts_iff. split.
      * intros H. split; [reflexivity|]. intros k Hk. apply H; lia.
      * intros [_ H] k Hk. apply H; lia.
    + intros Hok.
      destruct (incremental_loop_outcome s1 step nd (Z.to_nat (nd - 1)) 1
                  lastValidState lastValidTime [s2])
        as [(_ & _ & Hs & Ht) | (Hf & _)].
      * split; assumption.
      * rewrite Hf in Hok; discriminate.
  - split; [|discriminate].
    simpl. split; [discriminate | intros [H _]; discriminate].
Qed.

(** The two validators decide every edge of at most 2^30 divisions
    alike. *)
Theorem validators_agree
    (s1 s2 : State) (lastValidState : option State) (lastValidTime : option Q) :
  fst (findDifferenceStep s1 s2 1) <= 1073741824 ->
  checkMotionSubdivision s1 s2
  = ok (checkMotionIncremental s1 s2 lastValidState lastValidTime).
Proof.
  intros Hnd.
  destruct (ok (checkMotionIncremental s1 s2 lastValidState lastValidTime)) eqn:E.
  - apply checkMotionIncremental_accepts_grid in E. destruct E as [Hs2 Hall].
    now apply checkMotionSubdivision_complete.
  - destruct (checkMotionSubdivision s1 s2) eqn:S; [|reflexivity].
    rewrite <- E. symmetry. apply checkMotionIncremental_accepts_grid. split.
    + apply (checkMotionSubdivision_true s1 s2 S).
    + intros k. now apply checkMotionSubdivision_inside.
Qed.

Lemma incremental_loop_queries (s1 : State) (step : list Q) (nd : Z) (n : nat) :
  forall (j : Z) (lvs : option State) (lvt : option Q) (asked : list State),
  exists m : nat,
    (m <= n)%nat /\
    queries (incremental_loop s1 step nd n j lvs lvt asked)
    = asked ++ map (fun t => grid_state s1 step (j + Z.of_nat t)) (seq 0 m) /\
    (ok (incremental_loop s1 step nd n j lvs lvt asked) = true -> m = n).
Proof.
  induction n as [|n IH]; intros j lvs lvt asked.
  - exists 0%nat. simpl. split; [lia|]. split; [now rewrite app_nil_r | reflexivity].
  - simpl incremental_loop.
    change (fill_values m_stateDimension
              (fun k => (value s1 k + inject_Z j * value step k)%Q))
      with (grid_state s1 step j).
    destruct (isValid (grid_state s1 step j)); simpl negb; cbv iota.
    + destruct (IH (j + 1) lvs lvt (asked ++ [grid_state s1 step j])) as (m & Hm & Eq & Hok).
      exists (S m). split; [lia|]. split; [|intros H; rewrite (Hok H); reflexivity].
      rewrite Eq, <- app_assoc. f_equal. simpl. rewrite Z.add_0_r. f_equal.
      rewrite <- seq_shift, map_map. apply map_ext. intros t. f_equal. lia.
    + exists 1%nat. simpl. split; [lia|]. split; [|discriminate].
      now rewrite Z.add_0_r.
Qed.

(** The incremental validator tests [s2] first and then the grid states of
    indices 1, 2, ... in this order without a gap; it makes at most [nd]
    tests, and every one of them when it accepts the edge. *)
Theorem checkMotionIncremental_queries
    (s1 s2 : State) (lastValidState : option State) (lastValidTime : option Q) :
  isValid s2 = true ->
  exists m : nat,
    (m <= Z.to_nat (fst (findDifferenceStep s1 s2 1) - 1))%nat /\
    queries (checkMotionIncremental s1 s2 lastValidState lastValidTime)
    = s2 :: map (fun t => grid_state s1 (snd (findDifferenceStep s1 s2 1))
                            (1 + Z.of_nat t))
                (seq 0 m) /\
    (ok (checkMotionIncremental s1 s2 lastValidState lastValidTime) = true ->
     m = Z.to_nat (fst (findDifferenceStep s1 s2 1) - 1)).
Proof.
  intros Hs2. unfold checkMotionIncremental. rewrite Hs2. simpl negb; cbv iota.
  destruct (findDifferenceStep s1 s2 1) as [nd step]; simpl fst; simpl snd.
  destruct (incremental_loop_queries s1 step nd (Z.to_nat (nd - 1)) 1
              lastValidState lastValidTime [s2]) as (m & Hm & Eq & Hok).
  exists m. split; [assumption|]. split; [exact Eq | exact Hok].
Qed.

(** An edge that starts in a valid state and passes the bisection validator
    materialises into valid states only. *)
Theorem accepted_motion_states_valid (s1 s2 : State) (sts : list (option State)) :
  isValid s1 = true ->
  checkMotionSubdivision s1 s2 = true ->
  exists n out,
    getMotionStates s1 s2 sts true = Some (n, out) /\
    Forall (fun p => exists st, p = Some st /\ isValid st = true) out.
Proof.
  intros Hs1 Hacc.
  destruct (getMotionStates_outcome s1 s2 sts true (or_introl eq_refl))
    as (out & E & L & C).
  cbv zeta iota in E, L, C.
  eexists. exists out. split; [exact E|].
  assert (Hnd : 1 <= fst (findDifferenceStep s1 s2 1))
    by apply findDifferenceStep_nd_positive.
  pose proof (proj1 (checkMotionSubdivision_true s1 s2 Hacc)) as Hs2.
  pose proof (fun k => checkMotionSubdivision_inside s1 s2 k Hacc) as Hloop.
  destruct (findDifferenceStep s1 s2 1) as [nd step]; simpl fst in *; simpl snd in *.
  apply Forall_forall. intros p Hin.
  destruct (In_nth_error _ _ Hin) as [j Hj].
  assert (Hlt : (j < S (Z.to_nat nd))%nat)
    by (rewrite <- L; apply nth_error_Some; congruence).
  rewrite (C j Hlt) in Hj. unfold motion_slot in Hj.
  destruct (Nat.eqb_spec j 0) as [Hj0 | Hj0]; [injection Hj as <-; eauto|].
  destruct (Nat.ltb_spec j (Z.to_nat nd)) as [Hin' | Hge].
  - injection Hj as <-. eexists. split; [reflexivity|].
    apply Hloop. lia.
  - destruct (Nat.eqb_spec j (Z.to_nat nd)); [injection Hj as <-; eauto | lia].
Qed.

(** ** Further properties of findDifferenceStep *)

Lemma fold_max_mono (l : list nat) (f g : nat -> Z) :
  (forall x, In x l -> Z.max 1 (f x) <= Z.max 1 (g x)) ->
  forall a b, 1 <= a -> a <= b ->
  fold_left Z.max (map f l) a <= fold_left Z.max (map g l) b.
Proof.
  induction l as [|x l IH]; intros H a b Ha Hab; simpl; [assumption|].
  apply IH.
  - intros y Hy. apply H. now right.
  - lia.
  - specialize (H x (or_introl eq_refl)). lia.
Qed.

Lemma fold_max_ones (l : list nat) (f : nat -> Z) :
  (forall x, In x l -> f x = 1) -> fold_left Z.max (map f l) 1 = 1.
Proof.
  induction l as [|x l IH]; intros H; simpl; [reflexivity|].
  rewrite (H x (or_introl eq_refl)). simpl. apply IH.
  intros y Hy. apply H. now right.
Qed.

Lemma Qdiv_nonpos (D x : Q) : (0 <= D)%Q -> (x <= 0)%Q -> (D / x <= 0)%Q.
Proof.
  intros HD Hx. destruct (Qle_lt_or_eq _ _ Hx) as [Hlt | Heq].
  - assert (E : (D / x == - (D / - x))%Q).
    { field. intros Z0. rewrite Z0 in Hlt. discriminate. }
    rewrite E.
    assert (P : (0 <= D / - x)%Q).
    { apply Qle_shift_div_l.
      - rewrite <- (Qopp_involutive 0). apply Qopp_lt_compat. exact Hlt.
      - now rewrite Qmult_0_l. }
    rewrite <- (Qopp_involutive 0). apply Qopp_le_compat. exact P.
  - unfold Qdiv. rewrite Heq. change (/ 0)%Q with 0%Q. rewrite Qmult_0_r. apply Qle_refl.
Qed.

(** The number of divisions is at least 1, and there is one step for each
    dimension of the space. *)
Theorem findDifferenceStep_shape (s1 s2 : State) (rho : Q) :
  1 <= fst (findDifferenceStep s1 s2 rho) /\
  length (snd (findDifferenceStep s1 s2 rho)) = m_stateDimension.
Proof.
  split.
  - apply findDifferenceStep_nd_positive.
  - unfold findDifferenceStep; simpl snd.
    rewrite length_map. unfold find_diff. apply fill_values_length.
Qed.

(** At factor 1.0 the step along an axis of positive resolution is no
    longer than that resolution, as long as the quotient of the axis
    converts within the range of [int] and leaves room for the increment. *)
Theorem step_within_resolution_in_range (s1 s2 : State) (i : nat) :
  (i < m_stateDimension)%nat ->
  (0 < resolution (component i))%Q ->
  (Qabs (value (find_diff s1 s2) i) / (1 * resolution (component i))
   < inject_Z int_max)%Q ->
  (Qabs (value (snd (findDifferenceStep s1 s2 1)) i) <= resolution (component i))%Q.
Proof.
  intros Hi Hr Hin. rewrite findDifferenceStep_step by assumption.
  pose proof (inject_Z_nd_positive s1 s2 1) as Hn.
  pose proof (findDifferenceStep_nd_ge s1 s2 1 i Hi) as Hge.
  rewrite find_diff_value in Hin, Hge by assumption.
  set (n := fst (findDifferenceStep s1 s2 1)) in *.
  set (D := Qabs (spec_diff s1 s2 i)) in *.
  set (r := resolution (component i)) in *.
  assert (Hr0 : ~ (r == 0)%Q) by (intros Z0; rewrite Z0 in Hr; discriminate).
  assert (H1r : (0 < 1 * r)%Q) by now rewrite Qmult_1_l.
  assert (L0 : (0 <= D / (1 * r))%Q).
  { apply Qle_shift_div_l; [assumption|]. rewrite Qmult_0_l. apply Qabs_nonneg. }
  rewrite (division_count_in_range _ L0 Hin) in Hge.
  assert (HD : (Qabs (spec_diff s1 s2 i / inject_Z n) == D / inject_Z n)%Q).
  { unfold Qdiv. rewrite Qabs_Qmult, Qabs_Qinv.
    rewrite (Qabs_pos (inject_Z n)) by now apply Qlt_le_weak.
    reflexivity. }
  rewrite HD. apply Qle_shift_div_r; [assumption|].
  assert (Hq : (D / (1 * r) < inject_Z n)%Q).
  { apply Qlt_le_trans with (inject_Z (Qfloor (D / (1 * r)) + 1)).
    - apply Qlt_floor.
    - rewrite <- Zle_Qle. lia. }
  assert (E : (D == D / (1 * r) * r)%Q) by (field; assumption).
  rewrite E, (Qmult_comm r). apply Qmult_le_compat_r.
  - now apply Qlt_le_weak.
  - now apply Qlt_le_weak.
Qed.

Lemma Qfloor_zero (q : Q) : (q == 0)%Q -> Qfloor q = 0.
Proof.
  intros E.
  assert (L : (q <= 0)%Q) by (rewrite E; apply Qle_refl).
  assert (G : (0 <= q)%Q) by (rewrite E; apply Qle_refl).
  pose proof (Qfloor_resp_le _ _ L) as F1. pose proof (Qfloor_resp_le _ _ G) as F2.
  change (Qfloor 0) with 0 in F1, F2. lia.
Qed.

Lemma division_count_nonpos (q : Q) : (q <= 0)%Q -> division_count q = 1.
Proof.
  intros Hq. unfold division_count.
  destruct (Qle_bool 0 q) eqn:E; cbn [andb]; [|reflexivity].
  apply Qle_bool_iff in E.
  rewrite (Qfloor_zero q) by now apply Qle_antisym.
  now destruct (Qlt_bool q (inject_Z int_max)).
Qed.

(** Within the range of [int], a greater quotient asks for no fewer
    divisions. *)
Lemma division_count_mono (q q' : Q) :
  (q <= q')%Q -> (q' < inject_Z int_max)%Q -> division_count q <= division_count q'.
Proof.
  intros Hle Hin. destruct (Qlt_le_dec q 0) as [Hneg | Hpos].
  - rewrite (division_count_nonpos q) by now apply Qlt_le_weak.
    apply division_count_positive.
  - rewrite !division_count_in_range; try assumption.
    + pose proof (Qfloor_resp_le _ _ Hle). lia.
    + now apply Qle_trans with q.
    + now apply Qle_lt_trans with q'.
Qed.

(** A smaller factor never gives fewer divisions, as long as every quotient
    at the smaller factor converts within the range of [int] and leaves
    room for the increment. *)
Theorem findDifferenceStep_factor_monotone (s1 s2 : State) (rho rho' : Q) :
  (0 < rho')%Q -> (rho' <= rho)%Q ->
  (forall i, (i < m_stateDimension)%nat ->
     (Qabs (value (find_diff s1 s2) i) / (rho' * resolution (component i))
      < inject_Z int_max)%Q) ->
  fst (findDifferenceStep s1 s2 rho) <= fst (findDifferenceStep s1 s2 rho').
Proof.
  intros Hpos Hle Hin. rewrite !findDifferenceStep_fold.
  apply fold_max_mono; [|lia|lia].
  intros i Hi. apply in_seq in Hi. specialize (Hin i ltac:(lia)).
  set (D := Qabs (value (find_diff s1 s2) i)) in *.
  assert (HD : (0 <= D)%Q) by apply Qabs_nonneg.
  set (r := resolution (component i)) in *.
  destruct (Qlt_le_dec 0 r) as [Hr | Hr].
  - assert (P' : (0 < rho' * r)%Q) by (apply Qmult_lt_0_compat; assumption).
    assert (P : (0 < rho * r)%Q).
    { apply Qmult_lt_0_compat; [|assumption]. now apply Qlt_le_trans with rho'. }
    assert (Hrho : ~ (rho == 0)%Q).
    { intros Z0. rewrite Z0, Qmult_0_l in P. discriminate. }
    assert (Hr0 : ~ (r == 0)%Q).
    { intros Z0. rewrite Z0 in Hr. discriminate. }
    assert (Hq : (D / (rho * r) <= D / (rho' * r))%Q).
    { apply Qle_shift_div_l; [assumption|].
      assert (E : (D / (rho * r) * (rho' * r) == D * ((rho' * r) / (rho * r)))%Q)
        by (field; repeat split; assumption).
      rewrite E. rewrite <- (Qmult_1_r D) at 2.
      rewrite (Qmult_comm D), (Qmult_comm D 1).
      apply Qmult_le_compat_r; [|assumption].
      apply Qle_shift_div_r; [assumption|]. rewrite Qmult_1_l.
      apply Qmult_le_compat_r; [assumption | now apply Qlt_le_weak]. }
    pose proof (division_count_mono _ _ Hq Hin). lia.
  - assert (N : (rho * r <= 0)%Q).
    { rewrite <- (Qmult_0_r rho). rewrite !(Qmult_comm rho).
      apply Qmult_le_compat_r; [assumption|].
      apply Qlt_le_weak. now apply Qlt_le_trans with rho'. }
    rewrite (division_count_nonpos _ (Qdiv_nonpos D (rho * r) HD N)).
    pose proof (division_count_positive (D / (rho' * r))). lia.
Qed.

(** An edge shorter than the resolution on every axis has a single division,
    no grid state strictly inside, and is validated by its end alone. *)
Theorem short_edge_single_division (s1 s2 : State) :
  (forall i, (i < m_stateDimension)%nat ->
     (Qabs (value (find_diff s1 s2) i) < resolution (component i))%Q) ->
  fst (findDifferenceStep s1 s2 1) = 1 /\
  checkMotionSubdivision s1 s2 = isValid s2.
Proof.
  intros Hshort.
  assert (Hnd : fst (findDifferenceStep s1 s2 1) = 1).
  { rewrite findDifferenceStep_fold. apply fold_max_ones.
    intros i Hi. apply in_seq in Hi. specialize (Hshort i ltac:(lia)).
    set (D := Qabs (value (find_diff s1 s2) i)) in *.
    assert (HD : (0 <= D)%Q) by apply Qabs_nonneg.
    set (r := resolution (component i)) in *.
    assert (Hr : (0 < 1 * r)%Q)
      by (rewrite Qmult_1_l; now apply Qle_lt_trans with D).
    assert (L0 : (0 <= D / (1 * r))%Q)
      by (apply Qle_shift_div_l; [assumption | now rewrite Qmult_0_l]).
    assert (L1 : (D / (1 * r) < 1)%Q)
      by (apply Qlt_shift_div_r; [assumption | now rewrite !Qmult_1_l]).
    pose proof (Qfloor_resp_le _ _ L0) as F0. change (Qfloor 0) with 0 in F0.
    assert (F1 : Qfloor (D / (1 * r)) < 1).
    { apply Z.lt_nge. intros F. rewrite Zle_Qle in F.
      pose proof (Qfloor_le (D / (1 * r))) as F'.
      apply (Qlt_irrefl 1). apply Qle_lt_trans with (D / (1 * r))%Q; [|assumption].
      now apply Qle_trans with (inject_Z (Qfloor (D / (1 * r))%Q)). }
    rewrite division_count_in_range; [lia | assumption |].
    apply Qlt_trans with 1%Q; [assumption | reflexivity]. }
  split; [assumption|].
  unfold checkMotionSubdivision.
  destruct (findDifferenceStep s1 s2 1) as [nd step]. simpl in Hnd. subst nd.
  destruct (isValid s2); reflexivity.
Qed.

(** Where no axis wraps, the number of divisions does not depend on the
    direction of the edge, and the steps of the reversed edge are the
    opposite steps. *)
Theorem findDifferenceStep_reverse (s1 s2 : State) (rho : Q) :
  (forall i, (i < m_stateDimension)%nat -> type (component i) <> WRAPPING_ANGLE) ->
  fst (findDifferenceStep s2 s1 rho) = fst (findDifferenceStep s1 s2 rho) /\
  forall i, (i < m_stateDimension)%nat ->
    (value (snd (findDifferenceStep s2 s1 rho)) i
     == - value (snd (findDifferenceStep s1 s2 rho)) i)%Q.
Proof.
  intros Hlin.
  assert (Hd : forall i, (i < m_stateDimension)%nat ->
            spec_diff s1 s2 i = (value s2 i - value s1 i)%Q /\
            spec_diff s2 s1 i = (value s1 i - value s2 i)%Q).
  { intros i Hi. specialize (Hlin i Hi). unfold spec_diff, spec_shortest_delta.
    destruct (type (component i)); [split; reflexivity | contradiction | split; reflexivity]. }
  assert (Hnd : fst (findDifferenceStep s2 s1 rho) = fst (findDifferenceStep s1 s2 rho)).
  { rewrite !findDifferenceStep_fold. f_equal. apply map_ext_in.
    intros i Hi. apply in_seq in Hi. destruct (Hd i ltac:(lia)) as [E1 E2].
    rewrite !find_diff_value by lia.
    rewrite E1, E2, (Qabs_Qminus (value s1 i)). reflexivity. }
  split; [exact Hnd|].
  intros i Hi. rewrite !findDifferenceStep_step by assumption.
  rewrite Hnd. destruct (Hd i Hi) as [E1 E2]. rewrite E1, E2.
  pose proof (inject_Z_nd_positive s1 s2 rho) as Hn.
  field. intros Z0. rewrite Z0 in Hn. discriminate.
Qed.

(** ** Properties of checkPath and interpolatePath *)

Lemma checkMotionSubdivision_end_valid (s1 s2 : State) :
  checkMotionSubdivision s1 s2 = true -> isValid s2 = true.
Proof.
  unfold checkMotionSubdivision. destruct (isValid s2); [reflexivity | discriminate].
Qed.

(** Every state of an accepted path is valid. *)
Theorem checkPath_states_valid (p : PathKinematic) :
  checkPath (Some p) = true ->
  Forall (fun s => isValid s = true) (states p).
Proof.
  unfold checkPath. destruct p as [sts]. simpl states.
  destruct sts as [|s rest]; [constructor|].
  simpl length. change (0 <? S (length rest))%nat with true. cbv iota.
  change (nth 0 (s :: rest) []) with s.
  destruct (isValid s) eqn:Hs; [|discriminate].
  rewrite checkPath_loop_true. intros Hedges.
  apply Forall_forall. intros x Hin.
  destruct (In_nth _ _ [] Hin) as (j & Hj & <-).
  destruct j as [|j]; [exact Hs|].
  apply (checkMotionSubdivision_end_valid (nth j (s :: rest) [])).
  replace (S j) with (j + 1)%nat by lia. apply Hedges.
  simpl in Hj |- *. unfold State in *. lia.
Qed.

Lemma states_in_between_spec (s1 : State) (step : list Q) (n : nat) :
  forall (j : Z) (acc : list State),
  states_in_between s1 step n j acc
  = acc ++ map (fun t => grid_state s1 step (j + Z.of_nat t)) (seq 0 n).
Proof.
  induction n as [|n IH]; intros j acc; simpl.
  - now rewrite app_nil_r.
  - rewrite IH, <- app_assoc. f_equal. simpl. rewrite Z.add_0_r. f_equal.
    rewrite <- seq_shift, map_map. apply map_ext. intros t. f_equal. lia.
Qed.

Lemma interpolate_loop_spec (sts : list State) (factor : Q) (n : nat) :
  forall (i : nat) (acc : list State),
  interpolate_loop sts factor n i acc
  = acc ++ flat_map (edge_segment sts factor) (seq i n).
Proof.
  induction n as [|n IH]; intros i acc; simpl.
  - now rewrite app_nil_r.
  - unfold edge_segment at 1.
    destruct (findDifferenceStep (nth i sts []) (nth (i + 1) sts []) factor) as [nd step].
    simpl fst; simpl snd.
    rewrite states_in_between_spec, IH. replace (i + 1)%nat with (S i) by lia.
    rewrite <- !app_assoc. reflexivity.
Qed.

Lemma interpolatePath_states (s : State) (rest : list State) (factor : Q) :
  interpolatePath (mkPathKinematic (s :: rest)) factor
  = Some (mkPathKinematic
            (flat_map (edge_segment (s :: rest) factor) (seq 0 (length rest))
             ++ [last (s :: rest) []])).
Proof.
  unfold interpolatePath. simpl states.
  replace (Z.of_nat (length (s :: rest)) - 1) with (Z.of_nat (length rest))
    by (simpl length; lia).
  destruct (Z.ltb_spec (Z.of_nat (length rest)) 0); [lia|].
  rewrite Nat2Z.id.
  assert (E : nth_error (s :: rest) (length rest) = Some (last (s :: rest) [])).
  { clear. revert s. induction rest as [|y rest IH]; intros s; [reflexivity|].
    simpl length. change (nth_error (s :: y :: rest) (S (length rest)))
      with (nth_error (y :: rest) (length rest)).
    rewrite IH. reflexivity. }
  rewrite E, interpolate_loop_spec. reflexivity.
Qed.

Lemma edge_segment_length (sts : list State) (factor : Q) (i : nat) :
  length (edge_segment sts factor i)
  = Z.to_nat (fst (findDifferenceStep (nth i sts []) (nth (i + 1) sts []) factor)).
Proof.
  unfold edge_segment. cbv zeta.
  set (nd := fst (findDifferenceStep (nth i sts []) (nth (i + 1) sts []) factor)).
  assert (H : 1 <= nd) by (unfold nd; apply findDifferenceStep_nd_positive).
  simpl length. rewrite length_map, length_seq. lia.
Qed.

Lemma flat_map_length_sum {A B : Type} (f : A -> list B) (l : list A) :
  length (flat_map f l) = list_sum (map (fun x => length (f x)) l).
Proof.
  induction l as [|x l IH]; simpl; [reflexivity|]. now rewrite length_app, IH.
Qed.

(** [interpolatePath] reads outside the vector of states exactly when the
    path is empty. *)
Theorem interpolatePath_fails_iff_empty (path : PathKinematic) (factor : Q) :
  interpolatePath path factor = None <-> states path = [].
Proof.
  destruct path as [[|s rest]].
  - split; reflexivity.
  - rewrite interpolatePath_states. split; discriminate.
Qed.

(** On a path that is not empty, [interpolatePath] gives one state more
    than the divisions of all edges together; the path still starts and
    ends in the same states, and every state it had is still there. *)
Theorem interpolatePath_shape (s : State) (rest : list State) (factor : Q) :
  exists r,
    interpolatePath (mkPathKinematic (s :: rest)) factor = Some r /\
    length (states r) = S (list_sum (edge_divisions (s :: rest) factor)) /\
    hd_error (states r) = Some s /\
    last (states r) [] = last (s :: rest) [] /\
    forall x, In x (s :: rest) -> In x (states r).
Proof.
  eexists. split; [apply interpolatePath_states|]. simpl states.
  split; [|split; [|split]].
  - rewrite length_app, flat_map_length_sum. simpl length.
    unfold edge_divisions.
    replace (length (s :: rest) - 1)%nat with (length rest) by (simpl; lia).
    rewrite (map_ext _ _ (edge_segment_length (s :: rest) factor)). lia.
  - destruct rest as [|y rest]; reflexivity.
  - apply last_last.
  - intros x Hin. destruct (In_nth _ _ [] Hin) as (j & Hj & <-).
    simpl length in Hj. apply in_or_app.
    destruct (Nat.eq_dec j (length rest)) as [-> | Hne].
    + right. left. clear. revert s. induction rest as [|y rest IH]; intros s; [reflexivity|].
      simpl length. change (nth (S (length rest)) (s :: y :: rest) [])
        with (nth (length rest) (y :: rest) []).
      rewrite <- IH. reflexivity.
    + left. apply in_flat_map. exists j.
      split; [apply in_seq; unfold State in *; lia|].
      unfold edge_segment. now left.
Qed.

(** A path whose edges have a single division each comes back as it was. *)
Theorem interpolatePath_single_divisions (s : State) (rest : list State) (factor : Q) :
  Forall (fun n => n = 1%nat) (edge_divisions (s :: rest) factor) ->
  interpolatePath (mkPathKinematic (s :: rest)) factor
  = Some (mkPathKinematic (s :: rest)).
Proof.
  intros Hone. rewrite interpolatePath_states. do 2 f_equal.
  assert (Hseg : forall i, (i < length rest)%nat ->
            edge_segment (s :: rest) factor i = [nth i (s :: rest) []]).
  { intros i Hi. unfold edge_segment.
    rewrite Forall_forall in Hone.
    assert (E : Z.to_nat (fst (findDifferenceStep (nth i (s :: rest) [])
                                 (nth (i + 1) (s :: rest) []) factor)) = 1%nat).
    { apply Hone. unfold edge_divisions.
      replace (length (s :: rest) - 1)%nat with (length rest) by (simpl; lia).
      apply in_map_iff. exists i. split; [reflexivity | apply in_seq; lia]. }
    replace (Z.to_nat (fst (findDifferenceStep (nth i (s :: rest) [])
                              (nth (i + 1) (s :: rest) []) factor) - 1))
      with 0%nat by lia.
    reflexivity. }
  clear Hone. revert s Hseg. induction rest as [|y rest IH]; intros s Hseg; [reflexivity|].
  change (seq 0 (length (y :: rest))) with (0%nat :: seq 1 (length rest)).
  cbn [flat_map].
  rewrite (Hseg 0%nat) by (simpl; lia). simpl app. simpl nth. f_equal.
  rewrite <- seq_shift, flat_map_concat_map, map_map, <- flat_map_concat_map.
  rewrite (flat_map_ext _ (edge_segment (y :: rest) factor)).
  - change (last (s :: y :: rest) []) with (last (y :: rest) []). apply IH.
    intros i Hi. specialize (Hseg (S i) ltac:(simpl; lia)).
    unfold edge_segment in *. exact Hseg.
  - intros i. reflexivity.
Qed.


(** ** Properties of the sampler *)

Lemma value_set_value (s : State) (i k : nat) (v : Q) :
  value (set_value s i v) k
  = if ((k =? i) && (i <? length s))%nat then v else value s k.
Proof.
  unfold value, set_value. revert i k.
  induction s as [|x s IH]; intros i k.
  - change (length (@nil Q)) with 0%nat. rewrite Nat.ltb_irrefl || idtac.
    replace (i <? 0)%nat with false by (symmetry; apply Nat.ltb_ge; lia).
    rewrite andb_false_r. destruct i; reflexivity.
  - destruct i as [|i], k as [|k]; simpl; try reflexivity.
    rewrite IH. reflexivity.
Qed.

Lemma set_value_length (s : State) (i : nat) (v : Q) :
  length (set_value s i v) = length s.
Proof. apply array_set_length. Qed.

Lemma std_max_bounds (a b : Q) : (a <= std_max a b)%Q /\ (b <= std_max a b)%Q.
Proof.
  unfold std_max. destruct (Qle_bool b a) eqn:E.
  - split; [apply Qle_refl | now apply Qle_bool_iff].
  - split; [|apply Qle_refl].
    destruct (Qlt_le_dec a b) as [H | H]; [now apply Qlt_le_weak|].
    apply Qle_bool_iff in H. congruence.
Qed.

Lemma std_min_bounds (a b : Q) : (std_min a b <= a)%Q /\ (std_min a b <= b)%Q.
Proof.
  unfold std_min. destruct (Qle_bool a b) eqn:E.
  - split; [apply Qle_refl | now apply Qle_bool_iff].
  - split; [|apply Qle_refl].
    destruct (Qlt_le_dec b a) as [H | H]; [now apply Qlt_le_weak|].
    apply Qle_bool_iff in H. congruence.
Qed.

Lemma std_max_least (a b c : Q) : (a <= c)%Q -> (b <= c)%Q -> (std_max a b <= c)%Q.
Proof. intros Ha Hb. unfold std_max. destruct (Qle_bool b a); assumption. Qed.

Lemma std_min_greatest (a b c : Q) : (c <= a)%Q -> (c <= b)%Q -> (c <= std_min a b)%Q.
Proof. intros Ha Hb. unfold std_min. destruct (Qle_bool a b); assumption. Qed.

Lemma plain_not_quaternion (i : nat) :
  plain_space -> (i < m_stateDimension)%nat ->
  ComponentType_eqb (type (component i)) QUATERNION = false.
Proof.
  intros Hp Hi. destruct (Hp i Hi) as [Hq _].
  destruct (type (component i)); [reflexivity | reflexivity | contradiction].
Qed.

(** The loop of [sampleNear] over a space without quaternions: the values
    below [i] stay, those from [i] on are drawn from their intervals. *)
Lemma sampleNear_loop_draws (near : State) (rho : list Q) (n : nat) :
  uniform_within -> plain_space ->
  (forall k, (k < m_stateDimension)%nat ->
     (std_max (minValue (component k)) (value near k - nth k rho 0)
      <= std_min (maxValue (component k)) (value near k + nth k rho 0))%Q) ->
  forall (i : nat) (state : State) (g : RNG),
  length state = m_stateDimension ->
  (m_stateDimension <= i + n)%nat ->
  length (fst (sampleNear_loop n i state near rho g)) = m_stateDimension /\
  (forall k, (k < i)%nat ->
     value (fst (sampleNear_loop n i state near rho g)) k = value state k) /\
  (forall k, (i <= k < m_stateDimension)%nat ->
     (std_max (minValue (component k)) (value near k - nth k rho 0)
      <= value (fst (sampleNear_loop n i state near rho g)) k
      <= std_min (maxValue (component k)) (value near k + nth k rho 0))%Q).
Proof.
  intros Hu Hp Hint. induction n as [|n IH]; intros i state g Hlen Hn.
  - simpl. split; [assumption|]. split; [reflexivity | intros k Hk; lia].
  - simpl sampleNear_loop. destruct (Nat.ltb_spec i m_stateDimension) as [Hi | Hi].
    + rewrite (plain_not_quaternion i Hp Hi).
      pose proof (Hu g _ _ (Hint i Hi)) as Hv.
      destruct (rng_uniform g
                  (std_max (minValue (component i)) (value near i - nth i rho 0)%Q)
                  (std_min (maxValue (component i)) (value near i + nth i rho 0)%Q))
        as [v g'].
      simpl fst in Hv.
      destruct (IH (i + 1)%nat (set_value state i v) g'
                  ltac:(now rewrite set_value_length) ltac:(lia)) as (L & Keep & Draw).
      split; [assumption|]. split.
      * intros k Hk. rewrite Keep by lia. rewrite value_set_value.
        destruct (Nat.eqb_spec k i); [lia | reflexivity].
      * intros k Hk. destruct (Nat.eq_dec k i) as [-> | Hne].
        -- rewrite Keep by lia. rewrite value_set_value, Nat.eqb_refl.
           destruct (Nat.ltb_spec i (length state)); [exact Hv | lia].
        -- apply Draw. lia.
    + simpl. split; [assumption|]. split; [reflexivity | intros k Hk; lia].
Qed.

Lemma near_interval (near : State) (rho : list Q) :
  plain_space ->
  within_bounds near ->
  (forall k, (k < m_stateDimension)%nat -> (0 <= nth k rho 0)%Q) ->
  forall k, (k < m_stateDimension)%nat ->
    (std_max (minValue (component k)) (value near k - nth k rho 0)
     <= std_min (maxValue (component k)) (value near k + nth k rho 0))%Q.
Proof.
  intros Hp Hb Hrho k Hk.
  destruct (Hp k Hk) as [_ Hmm]. destruct (Hb k Hk) as [Hlo Hhi].
  specialize (Hrho k Hk).
  apply std_max_least; apply std_min_greatest; lra.
Qed.

Lemma sampleNear_draws (state near : State) (rho : list Q) (g : RNG) :
  uniform_within -> plain_space ->
  length state = m_stateDimension ->
  within_bounds near ->
  (forall k, (k < m_stateDimension)%nat -> (0 <= nth k rho 0)%Q) ->
  length (fst (sampleNear state near rho g)) = m_stateDimension /\
  forall k, (k < m_stateDimension)%nat ->
    (std_max (minValue (component k)) (value near k - nth k rho 0)
     <= value (fst (sampleNear state near rho g)) k
     <= std_min (maxValue (component k)) (value near k + nth k rho 0))%Q.
Proof.
  intros Hu Hp Hlen Hb Hrho. unfold sampleNear.
  destruct (sampleNear_loop_draws near rho m_stateDimension Hu Hp
              (near_interval near rho Hp Hb Hrho) 0%nat state g Hlen ltac:(lia))
    as (L & _ & Draw).
  split; [assumption|]. intros k Hk. apply Draw. lia.
Qed.

Lemma interval_consequences (a b c d v : Q) :
  (std_max a b <= v <= std_min c d)%Q -> (a <= v <= c)%Q /\ (b <= v <= d)%Q.
Proof.
  intros [Hlo Hhi].
  destruct (std_max_bounds a b) as [Ha Hb]. destruct (std_min_bounds c d) as [Hc Hd].
  split; split; lra.
Qed.

(** In a space without quaternions, with a generator that draws within its
    interval, sampling near a state within bounds gives a state within
    bounds that is no further than [rho[i]] from it on every axis [i]. *)
Theorem sampleNear_within (state near : State) (rho : list Q) (g : RNG) :
  uniform_within -> plain_space ->
  length state = m_stateDimension ->
  within_bounds near ->
  (forall k, (k < m_stateDimension)%nat -> (0 <= nth k rho 0)%Q) ->
  length (fst (sampleNear state near rho g)) = m_stateDimension /\
  within_bounds (fst (sampleNear state near rho g)) /\
  forall k, (k < m_stateDimension)%nat ->
    (value near k - nth k rho 0 <= value (fst (sampleNear state near rho g)) k
     <= value near k + nth k rho 0)%Q.
Proof.
  intros Hu Hp Hlen Hb Hrho.
  destruct (sampleNear_draws state near rho g Hu Hp Hlen Hb Hrho) as [L Draw].
  split; [assumption|]. split.
  - intros k Hk. apply (interval_consequences _ _ _ _ _ (Draw k Hk)).
  - intros k Hk. apply (interval_consequences _ _ _ _ _ (Draw k Hk)).
Qed.

Lemma sample_loop_draws (n : nat) :
  uniform_within -> plain_space ->
  forall (i : nat) (state : State) (g : RNG),
  length state = m_stateDimension ->
  (m_stateDimension <= i + n)%nat ->
  length (fst (sample_loop n i state g)) = m_stateDimension /\
  (forall k, (k < i)%nat -> value (fst (sample_loop n i state g)) k = value state k) /\
  (forall k, (i <= k < m_stateDimension)%nat ->
     (minValue (component k) <= value (fst (sample_loop n i state g)) k
      <= maxValue (component k))%Q).
Proof.
  intros Hu Hp. induction n as [|n IH]; intros i state g Hlen Hn.
  - simpl. split; [assumption|]. split; [reflexivity | intros k Hk; lia].
  - simpl sample_loop. destruct (Nat.ltb_spec i m_stateDimension) as [Hi | Hi].
    + rewrite (plain_not_quaternion i Hp Hi).
      pose proof (Hu g _ _ (proj2 (Hp i Hi))) as Hv.
      destruct (rng_uniform g (minValue (component i)) (maxValue (component i)))
        as [v g'].
      simpl fst in Hv.
      destruct (IH (i + 1)%nat (set_value state i v) g'
                  ltac:(now rewrite set_value_length) ltac:(lia)) as (L & Keep & Draw).
      split; [assumption|]. split.
      * intros k Hk. rewrite Keep by lia. rewrite value_set_value.
        destruct (Nat.eqb_spec k i); [lia | reflexivity].
      * intros k Hk. destruct (Nat.eq_dec k i) as [-> | Hne].
        -- rewrite Keep by lia. rewrite value_set_value, Nat.eqb_refl.
           destruct (Nat.ltb_spec i (length state)); [exact Hv | lia].
        -- apply Draw. lia.
    + simpl. split; [assumption|]. split; [reflexivity | intros k Hk; lia].
Qed.

(** In a space without quaternions, with a generator that draws within its
    interval, a sampled state lies within the bounds, whatever the buffer
    held before. *)
Theorem sample_within (state : State) (g : RNG) :
  uniform_within -> plain_space ->
  length state = m_stateDimension ->
  length (fst (sample state g)) = m_stateDimension /\
  within_bounds (fst (sample state g)).
Proof.
  intros Hu Hp Hlen. unfold sample.
  destruct (sample_loop_draws m_stateDimension Hu Hp 0%nat state g Hlen ltac:(lia))
    as (L & _ & Draw).
  split; [assumption|]. intros k Hk. apply Draw. lia.
Qed.

(** Sampling near a state with one margin for all axes is sampling near it
    with the vector that repeats this margin. *)
Theorem sampleNear_rho_as_vector (state near : State) (rho : Q) (g : RNG) :
  sampleNear_rho state near rho g
  = sampleNear state near (repeat rho m_stateDimension) g.
Proof.
  unfold sampleNear_rho, sampleNear.
  enough (H : forall n i st h,
            sampleNear_rho_loop n i st near rho h
            = sampleNear_loop n i st near (repeat rho m_stateDimension) h) by apply H.
  clear state g.
  induction n as [|n IH]; intros i state g; [reflexivity|].
  simpl. destruct (Nat.ltb_spec i m_stateDimension) as [Hi | Hi]; [|reflexivity].
  destruct (ComponentType_eqb (type (component i)) QUATERNION).
  - destruct (rng_quaternion g) as [[[[q0 q1] q2] q3] g']. apply IH.
  - rewrite (nth_indep _ 0%Q rho) by now rewrite repeat_length.
    rewrite nth_repeat.
    destruct (rng_uniform g _ _) as [v g']. apply IH.
Qed.

(** Margins that reach beyond the bounds on both sides of every axis make
    sampling near a state the same as uniform sampling. *)
Theorem sampleNear_covering_is_sample (state near : State) (rho : list Q) (g : RNG) :
  (forall k, (k < m_stateDimension)%nat ->
     (value near k - nth k rho 0 <= minValue (component k))%Q /\
     (maxValue (component k) <= value near k + nth k rho 0)%Q) ->
  sampleNear state near rho g = sample state g.
Proof.
  intros Hcov. unfold sampleNear, sample.
  enough (H : forall n i st h,
            sampleNear_loop n i st near rho h = sample_loop n i st h) by apply H.
  clear state g.
  induction n as [|n IH]; intros i state g; [reflexivity|].
  simpl. destruct (Nat.ltb_spec i m_stateDimension) as [Hi | Hi]; [|reflexivity].
  destruct (ComponentType_eqb (type (component i)) QUATERNION).
  - destruct (rng_quaternion g) as [[[[q0 q1] q2] q3] g']. apply IH.
  - destruct (Hcov i Hi) as [Hlo Hhi].
    unfold std_max, std_min.
    rewrite (proj2 (Qle_bool_iff _ _) Hlo), (proj2 (Qle_bool_iff _ _) Hhi).
    destruct (rng_uniform g _ _) as [v g']. apply IH.
Qed.

(** ** Further properties of the repair of input states *)

Lemma clipped_within (i : nat) (v : Q) :
  (minValue (component i) <= maxValue (component i))%Q ->
  (minValue (component i) <= clipped i v <= maxValue (component i))%Q.
Proof.
  intros Hmm. unfold clipped.
  destruct (Qlt_bool (maxValue (component i)) v) eqn:E1.
  - split; [assumption | apply Qle_refl].
  - apply Qlt_bool_false in E1.
    destruct (Qlt_bool v (minValue (component i))) eqn:E2.
    + split; [apply Qle_refl | assumption].
    + apply Qlt_bool_false in E2. split; assumption.
Qed.

Lemma clipped_inside (i : nat) (v : Q) :
  (minValue (component i) <= v <= maxValue (component i))%Q -> clipped i v = v.
Proof.
  intros [Hlo Hhi]. unfold clipped.
  destruct (Qlt_bool (maxValue (component i)) v) eqn:E1.
  - apply Qlt_bool_true in E1. exfalso. apply (Qlt_irrefl v).
    now apply Qle_lt_trans with (maxValue (component i)).
  - destruct (Qlt_bool v (minValue (component i))) eqn:E2; [|reflexivity].
    apply Qlt_bool_true in E2. exfalso. apply (Qlt_irrefl v).
    now apply Qlt_le_trans with (minValue (component i)).
Qed.

Lemma clip_value_spec (state : State) (i k : nat) :
  (i < length state)%nat ->
  length (clip_value state i) = length state /\
  value (clip_value state i) k
  = if (k =? i)%nat then clipped i (value state i) else value state k.
Proof.
  intros Hi. unfold clip_value, clipped.
  destruct (Qlt_bool (maxValue (component i)) (value state i)).
  - rewrite set_value_length, value_set_value. split; [reflexivity|].
    destruct (Nat.eqb_spec k i), (Nat.ltb_spec i (length state)); simpl;
      try reflexivity; lia.
  - destruct (Qlt_bool (value state i) (minValue (component i))).
    + rewrite set_value_length, value_set_value. split; [reflexivity|].
      destruct (Nat.eqb_spec k i), (Nat.ltb_spec i (length state)); simpl;
        try reflexivity; lia.
    + split; [reflexivity|]. destruct (Nat.eqb_spec k i) as [-> | _]; reflexivity.
Qed.

Lemma fold_clip_value (l : list nat) :
  forall state : State,
  NoDup l -> (forall x, In x l -> (x < length state)%nat) ->
  length (fold_left clip_value l state) = length state /\
  forall k,
    (In k l -> value (fold_left clip_value l state) k = clipped k (value state k)) /\
    (~ In k l -> value (fold_left clip_value l state) k = value state k).
Proof.
  induction l as [|x l IH]; intros state Hnd Hlt.
  - simpl. split; [reflexivity|]. intros k. split; [intros [] | reflexivity].
  - simpl fold_left. inversion Hnd as [|? ? Hx Hnd']; subst.
    assert (Hxl : (x < length state)%nat) by (apply Hlt; now left).
    destruct (clip_value_spec state x x Hxl) as [L _].
    destruct (IH (clip_value state x) Hnd'
                ltac:(intros y Hy; rewrite L; apply Hlt; now right)) as [L' V].
    split; [congruence|]. intros k. destruct (V k) as [Vin Vout]. split.
    + intros [-> | Hin].
      * rewrite (Vout Hx). destruct (clip_value_spec state k k Hxl) as [_ E].
        rewrite E, Nat.eqb_refl. reflexivity.
      * rewrite (Vin Hin). destruct (clip_value_spec state x k Hxl) as [_ E].
        rewrite E. destruct (Nat.eqb_spec k x) as [-> | _]; [contradiction | reflexivity].
    + intros Hnot. rewrite Vout by (intros H; apply Hnot; now right).
      destruct (clip_value_spec state x k Hxl) as [_ E]. rewrite E.
      destruct (Nat.eqb_spec k x) as [-> | _]; [|reflexivity].
      exfalso. apply Hnot. now left.
Qed.

Lemma fix_bounds_values (state : State) :
  length state = m_stateDimension ->
  length (fix_bounds state) = m_stateDimension /\
  forall k, (k < m_stateDimension)%nat ->
    value (fix_bounds state) k = clipped k (value state k).
Proof.
  intros Hlen. unfold fix_bounds.
  destruct (fold_clip_value (seq 0 m_stateDimension) state (seq_NoDup _ _)
              ltac:(intros x Hx; apply in_seq in Hx; lia)) as [L V].
  split; [congruence|]. intros k Hk. apply (proj1 (V k)). apply in_seq. lia.
Qed.

Lemma satisfiesBounds_within (s : State) :
  satisfiesBounds s = true <-> within_bounds s.
Proof.
  unfold satisfiesBounds, within_bounds. rewrite forallb_forall. split.
  - intros H i Hi. specialize (H i ltac:(apply in_seq; lia)).
    apply andb_true_iff in H. destruct H as [H1 H2].
    split; now apply Qle_bool_iff.
  - intros H i Hi. apply in_seq in Hi. destruct (H i ltac:(lia)) as [H1 H2].
    apply andb_true_iff. split; now apply Qle_bool_iff.
Qed.

Lemma state_ext (s t : State) :
  length s = length t -> (forall k, (k < length s)%nat -> value s k = value t k) -> s = t.
Proof. intros L V. apply (nth_ext s t 0%Q 0%Q L). exact V. Qed.

Lemma fix_bounds_post (state : State) :
  length state = m_stateDimension ->
  (forall i, (i < m_stateDimension)%nat ->
     (minValue (component i) <= maxValue (component i))%Q) ->
  length (fix_bounds state) = m_stateDimension /\
  within_bounds (fix_bounds state) /\
  (forall i, (i < m_stateDimension)%nat ->
     (minValue (component i) <= value state i <= maxValue (component i))%Q ->
     value (fix_bounds state) i = value state i).
Proof.
  intros Hlen Hmm. destruct (fix_bounds_values state Hlen) as [L V].
  split; [assumption|]. split.
  - intros i Hi. rewrite (V i Hi). apply clipped_within. now apply Hmm.
  - intros i Hi Hin. rewrite (V i Hi). now apply clipped_inside.
Qed.

(** The loop that fixes the bounds brings every axis within its bounds,
    leaves the axes that are within them as they are, and changes nothing
    when applied again. *)
Theorem fix_bounds_projects (state : State) :
  length state = m_stateDimension ->
  (forall i, (i < m_stateDimension)%nat ->
     (minValue (component i) <= maxValue (component i))%Q) ->
  within_bounds (fix_bounds state) /\
  (forall i, (i < m_stateDimension)%nat ->
     (minValue (component i) <= value state i <= maxValue (component i))%Q ->
     value (fix_bounds state) i = value state i) /\
  fix_bounds (fix_bounds state) = fix_bounds state.
Proof.
  intros Hlen Hmm. destruct (fix_bounds_post state Hlen Hmm) as (L & W & Keep).
  split; [assumption|]. split; [assumption|].
  destruct (fix_bounds_post (fix_bounds state) L Hmm) as (L2 & _ & Keep2).
  apply state_ext; [congruence|].
  intros k Hk. apply Keep2; [congruence|]. apply W. congruence.
Qed.

Lemma attempts_loop_flag (attempts : nat) :
  forall (result : bool) (state temp : State) (rho : list Q) (sc : RNG),
  result = isValid state ->
  fst (attempts_loop attempts result state temp rho sc)
  = isValid (snd (attempts_loop attempts result state temp rho sc)).
Proof.
  induction attempts as [|n IH]; intros result state temp rho sc Hr; simpl.
  - assumption.
  - destruct result; simpl; [assumption|].
    destruct (sampleNear state temp rho sc) as [state' sc']. now apply IH.
Qed.

(** The flag that [searchValidNearby] returns tells whether the state it
    leaves in [*state] is valid. *)
Theorem searchValidNearby_flag (state near : State) (rho : list Q) (attempts : nat)
    (sc : RNG) :
  fst (searchValidNearby state near rho attempts sc)
  = isValid (snd (searchValidNearby state near rho attempts sc)).
Proof.
  unfold searchValidNearby, copyState.
  set (p := if negb (satisfiesBounds near) then fix_bounds near else near).
  destruct (isValid p) eqn:Hp; simpl negb; cbv iota.
  - simpl. now rewrite Hp.
  - apply attempts_loop_flag. now rewrite Hp.
Qed.

Lemma projected_within (near : State) :
  plain_space -> length near = m_stateDimension ->
  length (projected near) = m_stateDimension /\ within_bounds (projected near).
Proof.
  intros Hp Hlen. unfold projected.
  destruct (satisfiesBounds near) eqn:E; simpl negb; cbv iota.
  - split; [assumption | now apply satisfiesBounds_within].
  - destruct (fix_bounds_post near Hlen (fun i Hi => proj2 (Hp i Hi))) as (L & W & _).
    split; assumption.
Qed.

Lemma attempts_loop_near (temp : State) (rho : list Q) (attempts : nat) :
  uniform_within -> plain_space ->
  within_bounds temp ->
  (forall k, (k < m_stateDimension)%nat -> (0 <= nth k rho 0)%Q) ->
  forall (result : bool) (state : State) (sc : RNG),
  length state = m_stateDimension ->
  within_bounds state ->
  (forall k, (k < m_stateDimension)%nat ->
     (value temp k - nth k rho 0 <= value state k <= value temp k + nth k rho 0)%Q) ->
  within_bounds (snd (attempts_loop attempts result state temp rho sc)) /\
  (forall k, (k < m_stateDimension)%nat ->
     (value temp k - nth k rho 0
      <= value (snd (attempts_loop attempts result state temp rho sc)) k
      <= value temp k + nth k rho 0)%Q).
Proof.
  intros Hu Hp Ht Hrho.
  induction attempts as [|n IH]; intros result state sc Hlen Hw Hn; simpl.
  - split; assumption.
  - destruct result; simpl; [split; assumption|].
    destruct (sampleNear_draws state temp rho sc Hu Hp Hlen Ht Hrho) as (L & Draw).
    destruct (sampleNear state temp rho sc) as [state' sc']. simpl fst in *.
    apply IH; [assumption | |].
    + intros k Hk. apply (interval_consequences _ _ _ _ _ (Draw k Hk)).
    + intros k Hk. apply (interval_consequences _ _ _ _ _ (Draw k Hk)).
Qed.

(** In a space without quaternions, with a generator that draws within its
    interval and margins that are not negative, the state that
    [searchValidNearby] leaves in [*state] lies within the bounds and no
    further than [rho[i]] on every axis [i] from the state it tested
    first, which is [near] brought within the bounds. *)
Theorem searchValidNearby_within (state near : State) (rho : list Q) (attempts : nat)
    (sc : RNG) :
  uniform_within -> plain_space ->
  length near = m_stateDimension ->
  (forall k, (k < m_stateDimension)%nat -> (0 <= nth k rho 0)%Q) ->
  within_bounds (snd (searchValidNearby state near rho attempts sc)) /\
  (forall k, (k < m_stateDimension)%nat ->
     (value (projected near) k - nth k rho 0
      <= value (snd (searchValidNearby state near rho attempts sc)) k
      <= value (projected near) k + nth k rho 0)%Q).
Proof.
  intros Hu Hp Hlen Hrho.
  destruct (projected_within near Hp Hlen) as [Lp Wp].
  assert (Self : forall k, (k < m_stateDimension)%nat ->
             (value (projected near) k - nth k rho 0 <= value (projected near) k
              <= value (projected near) k + nth k rho 0)%Q).
  { intros k Hk. specialize (Hrho k Hk). split; lra. }
  unfold searchValidNearby, copyState. fold (projected near).
  destruct (isValid (projected near)); simpl negb; cbv iota.
  - simpl snd. split; assumption.
  - now apply attempts_loop_near.
Qed.

Lemma searchValidNearby_success (state near : State) (rho : list Q) (attempts : nat)
    (sc : RNG) :
  fst (searchValidNearby state near rho attempts sc) = true ->
  isValid (snd (searchValidNearby state near rho attempts sc)) = true.
Proof.
  unfold searchValidNearby, copyState.
  set (p := if negb (satisfiesBounds near) then fix_bounds near else near).
  destruct (isValid p) eqn:Hp; simpl negb; cbv iota.
  - intros _. exact Hp.
  - intros H. rewrite <- H. symmetry. apply attempts_loop_flag. now rewrite Hp.
Qed.

Lemma searchValidNearby_snd_within (state near : State) (rho : list Q) (attempts : nat)
    (sc : RNG) :
  uniform_within -> plain_space ->
  length near = m_stateDimension ->
  (forall k, (k < m_stateDimension)%nat -> (0 <= nth k rho 0)%Q) ->
  within_bounds (snd (searchValidNearby state near rho attempts sc)).
Proof.
  intros Hu Hp Hlen Hrho.
  destruct (projected_within near Hp Hlen) as [Lp Wp].
  unfold searchValidNearby, copyState. fold (projected near).
  destruct (isValid (projected near)); simpl negb; cbv iota; [exact Wp|].
  apply attempts_loop_near; try assumption.
  intros k Hk. specialize (Hrho k Hk). split; lra.
Qed.

Lemma fix_state_good (st : State) (rho : list Q) (attempts : nat) (sc : RNG)
    (m1 m2 : Message) (m3 : State -> list Q -> Message) (m4 : Message) :
  satisfiesBounds st = true -> isValid st = true ->
  fix_state st rho attempts sc m1 m2 m3 m4 = (st, []).
Proof. intros Hb Hv. unfold fix_state. rewrite Hb, Hv. reflexivity. Qed.

(** The three ways the block for one state ends: the state was good, the
    search succeeded, or it failed. *)
Lemma fix_state_outcome (st : State) (rho : list Q) (attempts : nat) (sc : RNG)
    (m1 m2 : Message) (m3 : State -> list Q -> Message) (m4 : Message) :
  (satisfiesBounds st = true /\ isValid st = true /\
   fst (fix_state st rho attempts sc m1 m2 m3 m4) = st) \/
  (fst (searchValidNearby (new_State m_stateDimension) st rho attempts sc) = true /\
   fst (fix_state st rho attempts sc m1 m2 m3 m4)
   = snd (searchValidNearby (new_State m_stateDimension) st rho attempts sc)) \/
  (fst (fix_state st rho attempts sc m1 m2 m3 m4) = st /\
   In m4 (snd (fix_state st rho attempts sc m1 m2 m3 m4))).
Proof.
  unfold fix_state, copyState.
  destruct (satisfiesBounds st) eqn:Hb; [destruct (isValid st) eqn:Hv|].
  - left. simpl. auto.
  - right. simpl.
    destruct (searchValidNearby (new_State m_stateDimension) st rho attempts sc)
      as [[|] temp]; simpl; [left; auto | right; split; [reflexivity|]].
    right; right; left; reflexivity.
  - right. simpl.
    destruct (searchValidNearby (new_State m_stateDimension) st rho attempts sc)
      as [[|] temp]; simpl; [left; auto | right; split; [reflexivity|]].
    right; right; left; reflexivity.
Qed.

Lemma fix_start_states_nth (rhoStart : list Q) (attempts : nat) (sts : list (option State)) :
  forall (i0 k : nat) (st : State),
  nth_error sts k = Some (Some st) ->
  nth_error (fst (fix_start_states sts i0 rhoStart attempts)) k
  = Some (Some (fst (fix_state st rhoStart attempts (samplers (i0 + k))
                       msg_initial_not_valid msg_initial_not_within_bounds
                       msg_attempt_fix_initial (warn_unable_fix_start (i0 + k))))) /\
  (forall m,
     In m (snd (fix_state st rhoStart attempts (samplers (i0 + k))
                  msg_initial_not_valid msg_initial_not_within_bounds
                  msg_attempt_fix_initial (warn_unable_fix_start (i0 + k)))) ->
     In m (snd (fix_start_states sts i0 rhoStart attempts))).
Proof.
  induction sts as [|p sts IH]; intros i0 k st Hk.
  - destruct k; discriminate.
  - simpl fix_start_states. destruct k as [|k].
    + simpl in Hk. injection Hk as ->. rewrite Nat.add_0_r.
      destruct (fix_state st rhoStart attempts (samplers i0) _ _ _ _) as [st' said1].
      destruct (fix_start_states sts (S i0) rhoStart attempts) as [rest' said2].
      simpl. split; [reflexivity|]. intros m Hm. apply in_or_app. now left.
    + simpl in Hk. replace (i0 + S k)%nat with (S i0 + k)%nat by lia.
      destruct (IH (S i0) k st Hk) as [E I].
      destruct (fix_start_states sts (S i0) rhoStart attempts) as [rest' said2].
      simpl in E, I. destruct p as [st1|].
      * destruct (fix_state st1 rhoStart attempts (samplers i0) _ _ _ _) as [st' said1].
        simpl. split; [assumption|]. intros m Hm. apply in_or_app. right. now apply I.
      * simpl. split; assumption.
Qed.

Lemma fix_start_states_shape (rhoStart : list Q) (attempts : nat) (sts : list (option State)) :
  forall i0 : nat,
  length (fst (fix_start_states sts i0 rhoStart attempts)) = length sts /\
  forall k, nth_error sts k = Some None ->
    nth_error (fst (fix_start_states sts i0 rhoStart attempts)) k = Some None.
Proof.
  induction sts as [|p sts IH]; intros i0.
  - simpl. split; [reflexivity | intros k H; exact H].
  - simpl fix_start_states. destruct (IH (S i0)) as [L N].
    destruct (fix_start_states sts (S i0) rhoStart attempts) as [rest' said2].
    simpl in L, N. destruct p as [st|].
    + destruct (fix_state st rhoStart attempts (samplers i0) _ _ _ _) as [st' said1].
      simpl. split; [now rewrite L|]. intros [|k] Hk; [discriminate | now apply N].
    + simpl. split; [now rewrite L|]. intros [|k] Hk; [reflexivity | now apply N].
Qed.

Lemma fix_start_states_good (rhoStart : list Q) (attempts : nat) (sts : list (option State)) :
  (forall st, In (Some st) sts -> satisfiesBounds st = true /\ isValid st = true) ->
  forall i0 : nat, fix_start_states sts i0 rhoStart attempts = (sts, []).
Proof.
  induction sts as [|p sts IH]; intros Hgood i0; [reflexivity|].
  simpl fix_start_states.
  rewrite (IH (fun st H => Hgood st (or_intror H)) (S i0)).
  destruct p as [st|]; [|reflexivity].
  destruct (Hgood st (or_introl eq_refl)) as [Hb Hv].
  rewrite (fix_state_good st rhoStart attempts (samplers i0) _ _ _ _ Hb Hv). reflexivity.
Qed.

(** In a space without quaternions, with a generator that draws within its
    interval and margins that are not negative: after
    [fixInvalidInputStates], a start or goal state of the right dimension is
    valid and within the bounds, or it is as it was and the warning for it
    has been sent. *)
Theorem fixInvalidInputStates_post
    (q : PlanningQuery) (rhoStart rhoGoal : list Q) (attempts : nat)
    (w : InputState) (st : State) :
  uniform_within -> plain_space ->
  (forall k, (k < m_stateDimension)%nat -> (0 <= nth k rhoStart 0)%Q) ->
  (forall k, (k < m_stateDimension)%nat -> (0 <= nth k rhoGoal 0)%Q) ->
  length st = m_stateDimension ->
  input_state q w = Some st ->
  exists st',
    input_state (fixInvalidInputStates q rhoStart rhoGoal attempts) w = Some st' /\
    ((isValid st' = true /\ within_bounds st') \/
     (st' = st /\
      In (input_warning w) (m_msg (fixInvalidInputStates q rhoStart rhoGoal attempts)))).
Proof.
  intros Hu Hp Hrs Hrg Hlen Hst.
  assert (Fix : forall rho sc m1 m2 m3 m4,
            (forall k, (k < m_stateDimension)%nat -> (0 <= nth k rho 0)%Q) ->
            (isValid (fst (fix_state st rho attempts sc m1 m2 m3 m4)) = true /\
             within_bounds (fst (fix_state st rho attempts sc m1 m2 m3 m4))) \/
            (fst (fix_state st rho attempts sc m1 m2 m3 m4) = st /\
             In m4 (snd (fix_state st rho attempts sc m1 m2 m3 m4)))).
  { intros rho sc m1 m2 m3 m4 Hrho.
    destruct (fix_state_outcome st rho attempts sc m1 m2 m3 m4)
      as [(Hb & Hv & E) | [(Hf & E) | H]].
    - left. rewrite E. split; [assumption | now apply satisfiesBounds_within].
    - left. rewrite E. split.
      + now apply searchValidNearby_success.
      + now apply searchValidNearby_snd_within.
    - now right. }
  unfold fixInvalidInputStates. destruct w as [i|]; simpl in Hst.
  - destruct (nth_error (m_startStates q) i) as [[st0|]|] eqn:Hi; try discriminate.
    injection Hst as ->.
    destruct (fix_start_states_nth rhoStart attempts (m_startStates q) 0 i st Hi) as [E I].
    simpl Nat.add in E, I.
    destruct (fix_start_states (m_startStates q) 0 rhoStart attempts) as [starts said1].
    simpl fst in E; simpl snd in I.
    eexists. split.
    + destruct (m_goal q) as [[[stg|]|]|];
        try destruct (fix_state stg rhoGoal attempts _ _ _ _ _) as [stg' saidg];
        simpl; rewrite E; reflexivity.
    + destruct (Fix rhoStart (samplers i) msg_initial_not_valid
                  msg_initial_not_within_bounds msg_attempt_fix_initial
                  (warn_unable_fix_start i) Hrs) as [H | [H1 H2]]; [now left|].
      right. split; [assumption|]. apply I in H2.
      destruct (m_goal q) as [[[stg|]|]|];
        try destruct (fix_state stg rhoGoal attempts _ _ _ _ _) as [stg' saidg];
        simpl; apply in_or_app; right; apply in_or_app; now left.
  - destruct (m_goal q) as [[[stg|]|]|] eqn:Hg; try discriminate.
    injection Hst as ->.
    destruct (Fix rhoGoal (samplers (length (m_startStates q))) msg_goal_not_valid
                msg_goal_not_within_bounds msg_attempt_fix_goal
                warn_unable_fix_goal Hrg) as [H | [H1 H2]];
      destruct (fix_start_states (m_startStates q) 0 rhoStart attempts) as [starts said1];
      destruct (fix_state st rhoGoal attempts _ _ _ _ _) as [st' saidg];
      simpl in *; eexists; (split; [reflexivity|]).
    + now left.
    + right. split; [assumption|]. apply in_or_app; right; apply in_or_app; now right.
Qed.

(** [fixInvalidInputStates] keeps the number of start states and their null
    entries, leaves alone a goal that holds no state, and only adds to the
    messages sent. *)
Theorem fixInvalidInputStates_frame
    (q : PlanningQuery) (rhoStart rhoGoal : list Q) (attempts : nat) :
  length (m_startStates (fixInvalidInputStates q rhoStart rhoGoal attempts))
  = length (m_startStates q) /\
  (forall i, nth_error (m_startStates q) i = Some None ->
     nth_error (m_startStates (fixInvalidInputStates q rhoStart rhoGoal attempts)) i
     = Some None) /\
  (input_state q GoalInput = None ->
   m_goal (fixInvalidInputStates q rhoStart rhoGoal attempts) = m_goal q) /\
  exists said,
    m_msg (fixInvalidInputStates q rhoStart rhoGoal attempts) = m_msg q ++ said.
Proof.
  unfold fixInvalidInputStates.
  destruct (fix_start_states_shape rhoStart attempts (m_startStates q) 0) as [L N].
  destruct (fix_start_states (m_startStates q) 0 rhoStart attempts) as [starts said1].
  simpl fst in L, N. simpl input_state.
  destruct (m_goal q) as [[[stg|]|]|];
    try destruct (fix_state stg rhoGoal attempts _ _ _ _ _) as [stg' saidg];
    simpl; (split; [exact L|]); (split; [exact N|]);
    (split; [try discriminate; reflexivity | eexists; reflexivity]).
Qed.

(** When every start state and the goal state are within the bounds and
    valid, [fixInvalidInputStates] changes nothing and sends no message. *)
Theorem fixInvalidInputStates_noop
    (q : PlanningQuery) (rhoStart rhoGoal : list Q) (attempts : nat) :
  (forall w st, input_state q w = Some st ->
     satisfiesBounds st = true /\ isValid st = true) ->
  fixInvalidInputStates q rhoStart rhoGoal attempts = q.
Proof.
  intros Hgood. unfold fixInvalidInputStates.
  rewrite fix_start_states_good.
  - destruct q as [starts goal msg]. simpl m_goal in *; simpl m_msg; simpl m_startStates.
    destruct goal as [[[stg|]|]|]; simpl; rewrite ?app_nil_r; try reflexivity.
    destruct (Hgood GoalInput stg eq_refl) as [Hb Hv].
    rewrite (fix_state_good stg rhoGoal attempts _ _ _ _ _ Hb Hv).
    simpl. now rewrite app_nil_r.
  - intros st Hin. destruct (In_nth_error _ _ Hin) as [i Hi].
    apply (Hgood (StartState i)). simpl. now rewrite Hi.
Qed.

End SpaceInformationKinematic.


(** ** The properties on the scenarios *)

Local Open Scope Q_scope.

(** *** The angles package meets the contract used for wrapping axes *)

Lemma fmod_turns (x y : Q) : exists k : Z, fmod x y == x + inject_Z k * y.
Proof.
  exists (- Qtruncate (x / y))%Z. unfold fmod. rewrite inject_Z_opp. ring.
Qed.

Lemma normalize_angle_positive_turns (x : Q) :
  exists k : Z, normalize_angle_positive x == x + inject_Z k * (2 * M_PI).
Proof.
  unfold normalize_angle_positive.
  destruct (fmod_turns x (2 * M_PI)) as [k1 E1].
  destruct (fmod_turns (fmod x (2 * M_PI) + 2 * M_PI) (2 * M_PI)) as [k2 E2].
  exists (k1 + 1 + k2)%Z. rewrite E2, E1, !inject_Z_plus. ring.
Qed.

Lemma normalize_angle_turns (x : Q) :
  exists k : Z, normalize_angle x == x + inject_Z k * (2 * M_PI).
Proof.
  unfold normalize_angle.
  destruct (normalize_angle_positive_turns x) as [k E].
  destruct (Qlt_bool M_PI (normalize_angle_positive x)).
  - exists (k - 1)%Z. rewrite E. unfold Z.sub. rewrite inject_Z_plus, inject_Z_opp. ring.
  - now exists k.
Qed.

Lemma angles_shortest_angular_distance_turns (a b : Q) :
  exists k : Z, a + angles_shortest_angular_distance a b == b + inject_Z k * (2 * M_PI).
Proof.
  unfold angles_shortest_angular_distance.
  destruct (normalize_angle_positive_turns a) as [ka Ea].
  destruct (normalize_angle_positive_turns b) as [kb Eb].
  set (r := normalize_angle_positive (normalize_angle_positive b - normalize_angle_positive a)).
  destruct (normalize_angle_positive_turns
              (normalize_angle_positive b - normalize_angle_positive a)) as [kr Er].
  fold r in Er.
  destruct (Qlt_bool M_PI r).
  - destruct (normalize_angle_turns (- (2 * M_PI - r))) as [kn En].
    exists (kn - 1 + kr + kb - ka)%Z. rewrite En, Er, Ea, Eb.
    unfold Z.sub. rewrite !inject_Z_plus, !inject_Z_opp. ring.
  - destruct (normalize_angle_turns r) as [kn En].
    exists (kn + kr + kb - ka)%Z. rewrite En, Er, Ea, Eb.
    unfold Z.sub. rewrite !inject_Z_plus, !inject_Z_opp. ring.
Qed.

(** *** Validity outside the disk depends on the values only *)

Lemma Forall2_Qeq_value (s s' : State) (i : nat) :
  Forall2 Qeq s s' -> value s i == value s' i.
Proof.
  intros H. revert i. induction H as [|x y l l' Hxy Hl IH]; intros [|i];
    unfold value; simpl; try reflexivity; [assumption | apply IH].
Qed.

Lemma outside_disk_values (s s' : State) :
  Forall2 Qeq s s' -> outside_disk s = outside_disk s'.
Proof.
  intros H. unfold outside_disk, Qlt_bool.
  rewrite (Forall2_Qeq_value s s' 0 H), (Forall2_Qeq_value s s' 1 H). reflexivity.
Qed.

(** *** The difference step *)

(** C3. From (0,0) to (10000000000,0) at resolution 1 and factor 1.0, the
    formula [max(1, max_i (1 + floor(|diff[i]| / (rho * resolution[i]))))]
    asks for 10000000001 divisions; the quotient does not convert into an
    [int], so that [findDifferenceStep] returns a single division and the
    whole difference as its step. *)
Theorem findDifferenceStep_narrowing_conversion :
  spec_nd long_space angles_shortest_angular_distance corridor_start long_end 1
  = 10000000001%Z /\
  findDifferenceStep long_space angles_shortest_angular_distance corridor_start long_end 1
  = (1%Z, [10000000000; 0]).
Proof. split; vm_compute; reflexivity. Qed.

(** C4. From (0,0) to (10000000000,0) at factor 1.0, the step along the
    first axis, whose resolution is 1, is 10000000000: the number of
    divisions has been lost in the conversion of the quotient into an
    [int]. *)
Theorem step_exceeds_resolution :
  resolution (component long_space 0) == 1 /\
  value (snd (findDifferenceStep long_space angles_shortest_angular_distance
                corridor_start long_end 1)) 0
  == 10000000000 /\
  ~ Qabs (value (snd (findDifferenceStep long_space angles_shortest_angular_distance
                        corridor_start long_end 1)) 0)
    <= resolution (component long_space 0).
Proof.
  split; [reflexivity|]. split; [vm_compute; reflexivity|].
  vm_compute. intros H. apply H. reflexivity.
Qed.

(** On the circle, from 3 to -3: the steps end at -3 up to whole turns. *)
Lemma endpoint_closure_witness :
  (0 < m_stateDimension circle_space)%nat /\
  type (component circle_space 0) = WRAPPING_ANGLE /\
  exists k : Z,
    value [3] 0
    + inject_Z (fst (findDifferenceStep circle_space angles_shortest_angular_distance
                       [3] [-3] 1))
      * value (snd (findDifferenceStep circle_space angles_shortest_angular_distance
                      [3] [-3] 1)) 0
    == value [-3] 0 + inject_Z k * (2 * M_PI).
Proof.
  split; [simpl; lia|]. split; [reflexivity|].
  apply (endpoint_closure circle_space angles_shortest_angular_distance (2 * M_PI)
           [3] [-3] 1 0%nat angles_shortest_angular_distance_turns);
    [simpl; lia | reflexivity].
Defined.

(** Scenario 3 of the specification: the count follows the short way round. *)
Example wrapping_axis_divisions :
  fst (findDifferenceStep circle_space angles_shortest_angular_distance [3] [-3] 1) = 3%Z.
Proof. reflexivity. Qed.

(** *** The validators *)

(** An edge that passes beside the disk. *)
Lemma checkMotionSubdivision_sound_witness :
  checkMotionSubdivision corridor_space angles_shortest_angular_distance outside_disk
    beside_start beside_end = true /\
  outside_disk beside_end = true /\
  forall k : Z,
    (1 <= k <= fst (findDifferenceStep corridor_space angles_shortest_angular_distance
                      beside_start beside_end 1) - 1)%Z ->
    outside_disk
      (grid_state corridor_space beside_start
         (snd (findDifferenceStep corridor_space angles_shortest_angular_distance
                 beside_start beside_end 1)) k) = true.
Proof.
  split; [vm_compute; reflexivity|].
  apply (checkMotionSubdivision_sound corridor_space angles_shortest_angular_distance
           outside_disk beside_start beside_end).
  vm_compute; reflexivity.
Defined.

(** The edge through the disk is refused. *)
Example blocked_midpoint_bisection :
  checkMotionSubdivision corridor_space angles_shortest_angular_distance outside_disk
    corridor_start corridor_end = false.
Proof. vm_compute; reflexivity. Qed.

(** The edge through the disk, scanned left to right. *)
Lemma checkMotionIncremental_last_valid_witness :
  outside_disk corridor_start = true /\
  outside_disk corridor_end = true /\
  ok (checkMotionIncremental corridor_space angles_shortest_angular_distance outside_disk
        corridor_start corridor_end (Some [0; 0]) (Some 0)) = false /\
  exists j : Z,
    (1 <= j <= fst (findDifferenceStep corridor_space angles_shortest_angular_distance
                      corridor_start corridor_end 1) - 1)%Z /\
    (forall k : Z, (0 <= k <= j - 1)%Z ->
       outside_disk
         (grid_state corridor_space corridor_start
            (snd (findDifferenceStep corridor_space angles_shortest_angular_distance
                    corridor_start corridor_end 1)) k) = true) /\
    outside_disk
      (grid_state corridor_space corridor_start
         (snd (findDifferenceStep corridor_space angles_shortest_angular_distance
                 corridor_start corridor_end 1)) j) = false /\
    out_lastValidState
      (checkMotionIncremental corridor_space angles_shortest_angular_distance outside_disk
         corridor_start corridor_end (Some [0; 0]) (Some 0))
    = Some (grid_state corridor_space corridor_start
              (snd (findDifferenceStep corridor_space angles_shortest_angular_distance
                      corridor_start corridor_end 1)) (j - 1)) /\
    out_lastValidTime
      (checkMotionIncremental corridor_space angles_shortest_angular_distance outside_disk
         corridor_start corridor_end (Some [0; 0]) (Some 0))
    = Some (inject_Z (j - 1)
            / inject_Z (fst (findDifferenceStep corridor_space
                               angles_shortest_angular_distance corridor_start corridor_end 1))).
Proof.
  split; [reflexivity|]. split; [reflexivity|]. split; [reflexivity|].
  apply (checkMotionIncremental_last_valid corridor_space angles_shortest_angular_distance
           outside_disk corridor_start corridor_end (Some [0; 0]) (Some 0)
           outside_disk_values); reflexivity.
Defined.

(** What the scan reports there: the grid state of index 4, at time 4/11. *)
Example blocked_midpoint_incremental :
  checkMotionIncremental corridor_space angles_shortest_angular_distance outside_disk
    corridor_start corridor_end (Some [0; 0]) (Some 0)
  = mkIncrementalOutcome false (Some [40 # 11; 0 # 11]) (Some (4 # 11))
      [[10; 0]; [10 # 11; 0 # 11]; [20 # 11; 0 # 11]; [30 # 11; 0 # 11];
       [40 # 11; 0 # 11]; [50 # 11; 0 # 11]].
Proof. reflexivity. Qed.

Lemma checkMotionIncremental_invalid_endpoint_witness :
  blocked_space corridor_end = false /\
  checkMotionIncremental corridor_space angles_shortest_angular_distance blocked_space
    corridor_start corridor_end (Some [7; 7]) (Some (1 # 3))
  = mkIncrementalOutcome false (Some [7; 7]) (Some (1 # 3)) [[10; 0]].
Proof.
  split; [reflexivity|].
  apply (checkMotionIncremental_invalid_endpoint corridor_space
           angles_shortest_angular_distance blocked_space corridor_start corridor_end
           (Some [7; 7]) (Some (1 # 3))).
  reflexivity.
Defined.

(** *** checkPath *)

(** An empty path that is not null is accepted. *)
Lemma checkPath_empty_path_accepted :
  checkPath corridor_space angles_shortest_angular_distance free_space
    (Some (mkPathKinematic [])) <> false.
Proof. discriminate. Qed.

(** A path of two edges in the free corridor, accepted through the
    characterisation. *)
Lemma checkPath_result_witness :
  checkPath corridor_space angles_shortest_angular_distance free_space
    (Some (mkPathKinematic [corridor_start; [5; 0]; corridor_end])) = true.
Proof.
  apply (checkPath_result corridor_space angles_shortest_angular_distance free_space).
  split; [reflexivity|].
  intros [|[|j]] Hj; [vm_compute; reflexivity | vm_compute; reflexivity | simpl in Hj; lia].
Defined.

(** *** getMotionStates *)

(** Scenario 1 of the specification asks for 11 states; the call returns
    12. *)
Lemma free_corridor_not_eleven_states :
  option_map fst
    (getMotionStates corridor_space angles_shortest_angular_distance
       corridor_start corridor_end [] true)
  <> Some 11%nat.
Proof. vm_compute. discriminate. Qed.

(** C6, as the code has it.  In the space of two linear axes of bounds
    [0,10] and resolution 1, the edge from (0,0) to (10,0) has [nd = 11]
    divisions, and [getMotionStates] with [alloc] set returns 12: the
    sequence is resized to [nd + 1 = 12] slots, every one of them filled,
    the first with [s1] and the last with [s2]. *)
Theorem free_corridor_motion_states (shortest_angular_distance : Q -> Q -> Q)
    (sts : list (option State)) :
  fst (findDifferenceStep corridor_space shortest_angular_distance
         corridor_start corridor_end 1) = 11%Z /\
  exists out,
    getMotionStates corridor_space shortest_angular_distance
      corridor_start corridor_end sts true = Some (12%nat, out) /\
    length out = 12%nat /\
    Forall (fun p => p <> None) out /\
    nth_error out 0 = Some (Some corridor_start) /\
    nth_error out 11 = Some (Some corridor_end).
Proof.
  split; [reflexivity|].
  destruct (getMotionStates_outcome corridor_space shortest_angular_distance
              corridor_start corridor_end sts true (or_introl eq_refl))
    as (out & E & L & C).
  change (Z.to_nat (fst (findDifferenceStep corridor_space shortest_angular_distance
                           corridor_start corridor_end 1))) with 11%nat in *.
  cbv iota in *. exists out.
  split; [exact E|]. split; [exact L|]. split.
  - apply Forall_forall. intros p Hin.
    destruct (In_nth_error _ _ Hin) as [j Hj].
    assert (Hlt : (j < 12)%nat) by (rewrite <- L; apply nth_error_Some; congruence).
    rewrite (C j Hlt) in Hj. unfold motion_slot in Hj.
    destruct (j =? 0)%nat; [injection Hj as <-; discriminate|].
    destruct (Nat.ltb_spec j 11); [injection Hj as <-; discriminate|].
    destruct (Nat.eqb_spec j 11); [injection Hj as <-; discriminate | lia].
  - split; [apply (C 0%nat); lia | apply (C 11%nat); lia].
Qed.


(** *** The repair of input states *)

(** The start state (-1,5) lies outside the bounds and nothing is valid:
    the search fails, and the state keeps the value -1 that the projection
    into the bounds would have turned into 0. *)
Lemma failed_repair_leaves_state_unprojected :
  let q := mkPlanningQuery [Some [-1; 5]] None [] in
  let q' := fixInvalidInputStates corridor_space blocked_space unit lowest_uniform
              identity_quaternion (fun _ => tt) q [1 # 2; 1 # 2] [1 # 2; 1 # 2] 20 in
  fst (searchValidNearby corridor_space blocked_space unit lowest_uniform
         identity_quaternion (new_State 2) [-1; 5] [1 # 2; 1 # 2] 20 tt) = false /\
  fix_bounds corridor_space [-1; 5] = [0; 5] /\
  m_startStates q' = [Some [-1; 5]] /\
  m_startStates q' <> [Some (fix_bounds corridor_space [-1; 5])].
Proof.
  cbv zeta. split; [reflexivity|]. split; [reflexivity|]. split; [reflexivity|].
  vm_compute. discriminate.
Qed.

Lemma fixInvalidInputStates_failure_frame_witness :
  let q := mkPlanningQuery [Some [-1; 5]] None [] in
  let q' := fixInvalidInputStates corridor_space blocked_space unit lowest_uniform
              identity_quaternion (fun _ => tt) q [1 # 2; 1 # 2] [1 # 2; 1 # 2] 20 in
  input_state q' (StartState 0) = Some [-1; 5] /\
  In (warn_unable_fix_start 0) (m_msg q').
Proof.
  cbv zeta.
  apply (fixInvalidInputStates_failure_frame corridor_space blocked_space unit
           lowest_uniform identity_quaternion (fun _ => tt)
           (mkPlanningQuery [Some [-1; 5]] None []) [1 # 2; 1 # 2] [1 # 2; 1 # 2] 20
           (StartState 0) [-1; 5]); reflexivity.
Defined.

(** *** Further properties on the scenarios *)

Ltac corridor_axes i :=
  destruct i as [|[|i]]; [| | simpl in *; lia].

Lemma lowest_uniform_within : uniform_within unit lowest_uniform.
Proof. intros g a b H. simpl. split; [apply Qle_refl | exact H]. Qed.

Lemma corridor_plain : plain_space corridor_space.
Proof.
  intros i Hi. corridor_axes i; (split; [discriminate | simpl; lra]).
Qed.

Lemma half_margins_nonnegative (k : nat) :
  (k < m_stateDimension corridor_space)%nat -> 0 <= nth k half_margins 0.
Proof. intros Hk. corridor_axes k; simpl; lra. Qed.

(** The edge beside the disk has 11 divisions and is accepted: its end and
    its ten inner grid states are valid. *)
Lemma checkMotionSubdivision_accepts_iff_witness :
  (fst (findDifferenceStep corridor_space angles_shortest_angular_distance
          beside_start beside_end 1) <= 1073741824)%Z /\
  outside_disk beside_end = true /\
  forall k : Z,
    (1 <= k <= fst (findDifferenceStep corridor_space angles_shortest_angular_distance
                      beside_start beside_end 1) - 1)%Z ->
    outside_disk
      (grid_state corridor_space beside_start
         (snd (findDifferenceStep corridor_space angles_shortest_angular_distance
                 beside_start beside_end 1)) k) = true.
Proof.
  split; [vm_compute; discriminate|].
  apply (proj1 (checkMotionSubdivision_accepts_iff corridor_space
                  angles_shortest_angular_distance outside_disk beside_start beside_end
                  ltac:(vm_compute; discriminate))).
  vm_compute; reflexivity.
Defined.

(** On the edge beside the disk the two validators agree. *)
Lemma validators_agree_witness :
  (fst (findDifferenceStep corridor_space angles_shortest_angular_distance
          beside_start beside_end 1) <= 1073741824)%Z /\
  checkMotionSubdivision corridor_space angles_shortest_angular_distance outside_disk
    beside_start beside_end
  = ok (checkMotionIncremental corridor_space angles_shortest_angular_distance outside_disk
          beside_start beside_end None None).
Proof.
  split; [vm_compute; discriminate|].
  apply (validators_agree corridor_space angles_shortest_angular_distance outside_disk
           beside_start beside_end None None).
  vm_compute; discriminate.
Defined.

(** From (0,0) to (2000000000,0) at resolution 1 there are 2000000001
    divisions, and no number of rounds drains the queue. *)
Lemma checkMotionSubdivision_never_drains_witness :
  (1073741824 < fst (findDifferenceStep long_space angles_shortest_angular_distance
                       corridor_start far_end 1))%Z /\
  subdivision_loop long_space free_space 100 corridor_start
    (snd (findDifferenceStep long_space angles_shortest_angular_distance
            corridor_start far_end 1))
    (if (fst (findDifferenceStep long_space angles_shortest_angular_distance
                corridor_start far_end 1) >=? 2)%Z
     then [(1, fst (findDifferenceStep long_space angles_shortest_angular_distance
                      corridor_start far_end 1) - 1)%Z]
     else [])
  <> Some true.
Proof.
  split; [vm_compute; reflexivity|].
  apply (checkMotionSubdivision_never_drains long_space angles_shortest_angular_distance
           free_space corridor_start far_end 100).
  vm_compute; reflexivity.
Defined.

(** The run on the edge beside the disk ends within 20 rounds, accepting. *)
Lemma checkMotionSubdivision_run_witness :
  outside_disk beside_end = true /\
  subdivision_loop corridor_space outside_disk 20 beside_start
    (snd (findDifferenceStep corridor_space angles_shortest_angular_distance
            beside_start beside_end 1))
    (if (fst (findDifferenceStep corridor_space angles_shortest_angular_distance
                beside_start beside_end 1) >=? 2)%Z
     then [(1, fst (findDifferenceStep corridor_space angles_shortest_angular_distance
                      beside_start beside_end 1) - 1)%Z]
     else [])
  = Some true /\
  checkMotionSubdivision corridor_space angles_shortest_angular_distance outside_disk
    beside_start beside_end = true.
Proof.
  split; [reflexivity|]. split; [vm_compute; reflexivity|].
  apply (checkMotionSubdivision_run corridor_space angles_shortest_angular_distance
           outside_disk beside_start beside_end 20 true).
  - reflexivity.
  - vm_compute; reflexivity.
Defined.

(** On the free corridor the step of 10/11 along the first axis is within
    its resolution of 1. *)
Lemma step_within_resolution_in_range_witness :
  (0 < m_stateDimension corridor_space)%nat /\
  0 < resolution (component corridor_space 0) /\
  Qabs (value (snd (findDifferenceStep corridor_space angles_shortest_angular_distance
                      corridor_start corridor_end 1)) 0)
  <= resolution (component corridor_space 0).
Proof.
  split; [simpl; lia|]. split; [reflexivity|].
  apply (step_within_resolution_in_range corridor_space angles_shortest_angular_distance
           corridor_start corridor_end 0%nat); [simpl; lia | reflexivity | reflexivity].
Defined.

Lemma checkMotionIncremental_accepts_iff_witness :
  out_lastValidState
    (checkMotionIncremental corridor_space angles_shortest_angular_distance outside_disk
       beside_start beside_end (Some [7; 7]) (Some (1 # 3))) = Some [7; 7] /\
  out_lastValidTime
    (checkMotionIncremental corridor_space angles_shortest_angular_distance outside_disk
       beside_start beside_end (Some [7; 7]) (Some (1 # 3))) = Some (1 # 3).
Proof.
  apply (proj2 (checkMotionIncremental_accepts_iff corridor_space
                  angles_shortest_angular_distance outside_disk beside_start beside_end
                  (Some [7; 7]) (Some (1 # 3)))).
  vm_compute; reflexivity.
Defined.

Lemma checkMotionIncremental_queries_witness :
  exists m : nat,
    (m <= Z.to_nat (fst (findDifferenceStep corridor_space angles_shortest_angular_distance
                           corridor_start corridor_end 1) - 1))%nat /\
    queries (checkMotionIncremental corridor_space angles_shortest_angular_distance
               outside_disk corridor_start corridor_end None None)
    = corridor_end
      :: map (fun t => grid_state corridor_space corridor_start
                         (snd (findDifferenceStep corridor_space
                                 angles_shortest_angular_distance
                                 corridor_start corridor_end 1))
                         (1 + Z.of_nat t))
             (seq 0 m) /\
    (ok (checkMotionIncremental corridor_space angles_shortest_angular_distance
           outside_disk corridor_start corridor_end None None) = true ->
     m = Z.to_nat (fst (findDifferenceStep corridor_space angles_shortest_angular_distance
                          corridor_start corridor_end 1) - 1)).
Proof.
  apply (checkMotionIncremental_queries corridor_space angles_shortest_angular_distance
           outside_disk corridor_start corridor_end None None).
  reflexivity.
Defined.

Lemma accepted_motion_states_valid_witness :
  exists n out,
    getMotionStates corridor_space angles_shortest_angular_distance
      beside_start beside_end [] true = Some (n, out) /\
    Forall (fun p => exists st, p = Some st /\ outside_disk st = true) out.
Proof.
  apply (accepted_motion_states_valid corridor_space angles_shortest_angular_distance
           outside_disk beside_start beside_end []).
  - reflexivity.
  - vm_compute; reflexivity.
Defined.

Lemma findDifferenceStep_factor_monotone_witness :
  (fst (findDifferenceStep corridor_space angles_shortest_angular_distance
          corridor_start corridor_end 1)
   <= fst (findDifferenceStep corridor_space angles_shortest_angular_distance
             corridor_start corridor_end (1 # 2)))%Z.
Proof.
  apply (findDifferenceStep_factor_monotone corridor_space angles_shortest_angular_distance
           corridor_start corridor_end 1 (1 # 2)).
  - reflexivity.
  - discriminate.
  - intros i Hi. corridor_axes i; reflexivity.
Defined.

Lemma short_edge_single_division_witness :
  fst (findDifferenceStep corridor_space angles_shortest_angular_distance
         corridor_start short_end 1) = 1%Z /\
  checkMotionSubdivision corridor_space angles_shortest_angular_distance outside_disk
    corridor_start short_end = outside_disk short_end.
Proof.
  apply (short_edge_single_division corridor_space angles_shortest_angular_distance
           outside_disk corridor_start short_end).
  intros i Hi. corridor_axes i; reflexivity.
Defined.

Lemma findDifferenceStep_reverse_witness :
  fst (findDifferenceStep corridor_space angles_shortest_angular_distance
         corridor_end corridor_start 1)
  = fst (findDifferenceStep corridor_space angles_shortest_angular_distance
           corridor_start corridor_end 1) /\
  forall i, (i < m_stateDimension corridor_space)%nat ->
    value (snd (findDifferenceStep corridor_space angles_shortest_angular_distance
                  corridor_end corridor_start 1)) i
    == - value (snd (findDifferenceStep corridor_space angles_shortest_angular_distance
                       corridor_start corridor_end 1)) i.
Proof.
  apply (findDifferenceStep_reverse corridor_space angles_shortest_angular_distance
           corridor_start corridor_end 1).
  intros i Hi. corridor_axes i; discriminate.
Defined.

Lemma checkPath_states_valid_witness :
  Forall (fun s => outside_disk s = true) [beside_start; beside_end].
Proof.
  apply (checkPath_states_valid corridor_space angles_shortest_angular_distance
           outside_disk (mkPathKinematic [beside_start; beside_end])).
  vm_compute; reflexivity.
Defined.

Lemma interpolatePath_fails_iff_empty_witness :
  interpolatePath corridor_space angles_shortest_angular_distance
    (mkPathKinematic []) 1 = None.
Proof.
  apply (interpolatePath_fails_iff_empty corridor_space angles_shortest_angular_distance
           (mkPathKinematic []) 1).
  reflexivity.
Defined.

Lemma interpolatePath_shape_witness :
  exists r,
    interpolatePath corridor_space angles_shortest_angular_distance
      (mkPathKinematic [corridor_start; corridor_end]) 1 = Some r /\
    length (states r) = 12%nat /\
    hd_error (states r) = Some corridor_start /\
    last (states r) [] = corridor_end /\
    forall x, In x [corridor_start; corridor_end] -> In x (states r).
Proof.
  apply (interpolatePath_shape corridor_space angles_shortest_angular_distance
           corridor_start [corridor_end] 1).
Defined.

Lemma interpolatePath_single_divisions_witness :
  interpolatePath corridor_space angles_shortest_angular_distance
    (mkPathKinematic [corridor_start; short_end]) 1
  = Some (mkPathKinematic [corridor_start; short_end]).
Proof.
  apply (interpolatePath_single_divisions corridor_space angles_shortest_angular_distance
           corridor_start [short_end] 1).
  repeat constructor.
Defined.

Lemma sampleNear_within_witness :
  length (fst (sampleNear corridor_space unit lowest_uniform identity_quaternion
                 (new_State 2) [0; 5] half_margins tt)) = 2%nat /\
  within_bounds corridor_space
    (fst (sampleNear corridor_space unit lowest_uniform identity_quaternion
            (new_State 2) [0; 5] half_margins tt)) /\
  forall k, (k < m_stateDimension corridor_space)%nat ->
    value [0; 5] k - nth k half_margins 0
    <= value (fst (sampleNear corridor_space unit lowest_uniform identity_quaternion
                     (new_State 2) [0; 5] half_margins tt)) k
    <= value [0; 5] k + nth k half_margins 0.
Proof.
  apply (sampleNear_within corridor_space unit lowest_uniform identity_quaternion
           (new_State 2) [0; 5] half_margins tt
           lowest_uniform_within corridor_plain eq_refl).
  - intros i Hi. corridor_axes i; unfold value; simpl; lra.
  - exact half_margins_nonnegative.
Defined.

Lemma sample_within_witness :
  length (fst (sample corridor_space unit lowest_uniform identity_quaternion
                 (new_State 2) tt)) = 2%nat /\
  within_bounds corridor_space
    (fst (sample corridor_space unit lowest_uniform identity_quaternion (new_State 2) tt)).
Proof.
  apply (sample_within corridor_space unit lowest_uniform identity_quaternion
           (new_State 2) tt lowest_uniform_within corridor_plain eq_refl).
Defined.

Lemma sampleNear_covering_is_sample_witness :
  sampleNear corridor_space unit lowest_uniform identity_quaternion
    (new_State 2) [5; 5] [10; 10] tt
  = sample corridor_space unit lowest_uniform identity_quaternion (new_State 2) tt.
Proof.
  apply (sampleNear_covering_is_sample corridor_space unit lowest_uniform
           identity_quaternion (new_State 2) [5; 5] [10; 10] tt).
  intros k Hk. corridor_axes k; unfold value; simpl; lra.
Defined.

Lemma fix_bounds_projects_witness :
  within_bounds corridor_space (fix_bounds corridor_space outside_start) /\
  (forall i, (i < m_stateDimension corridor_space)%nat ->
     minValue (component corridor_space i) <= value outside_start i
     <= maxValue (component corridor_space i) ->
     value (fix_bounds corridor_space outside_start) i = value outside_start i) /\
  fix_bounds corridor_space (fix_bounds corridor_space outside_start)
  = fix_bounds corridor_space outside_start.
Proof.
  apply (fix_bounds_projects corridor_space outside_start eq_refl).
  intros i Hi. apply corridor_plain. exact Hi.
Defined.

Lemma searchValidNearby_within_witness :
  within_bounds corridor_space
    (snd (searchValidNearby corridor_space below_five unit lowest_uniform
            identity_quaternion (new_State 2) outside_start half_margins 20 tt)) /\
  forall k, (k < m_stateDimension corridor_space)%nat ->
    value (projected corridor_space outside_start) k - nth k half_margins 0
    <= value (snd (searchValidNearby corridor_space below_five unit lowest_uniform
                     identity_quaternion (new_State 2) outside_start half_margins 20 tt)) k
    <= value (projected corridor_space outside_start) k + nth k half_margins 0.
Proof.
  apply (searchValidNearby_within corridor_space below_five unit lowest_uniform
           identity_quaternion (new_State 2) outside_start half_margins 20 tt
           lowest_uniform_within corridor_plain eq_refl half_margins_nonnegative).
Defined.

(** The start state (-1,5) is repaired into (0, 9/2), which is valid. *)
Example repair_succeeds :
  searchValidNearby corridor_space below_five unit lowest_uniform identity_quaternion
    (new_State 2) outside_start half_margins 20 tt = (true, [0; 9 # 2]).
Proof. reflexivity. Qed.

Lemma fixInvalidInputStates_post_witness :
  exists st',
    input_state
      (fixInvalidInputStates corridor_space below_five unit lowest_uniform
         identity_quaternion (fun _ => tt)
         (mkPlanningQuery [Some outside_start] None []) half_margins half_margins 20)
      (StartState 0) = Some st' /\
    ((below_five st' = true /\ within_bounds corridor_space st') \/
     (st' = outside_start /\
      In (input_warning (StartState 0))
        (m_msg (fixInvalidInputStates corridor_space below_five unit lowest_uniform
                  identity_quaternion (fun _ => tt)
                  (mkPlanningQuery [Some outside_start] None [])
                  half_margins half_margins 20)))).
Proof.
  apply (fixInvalidInputStates_post corridor_space below_five unit lowest_uniform
           identity_quaternion (fun _ => tt)
           (mkPlanningQuery [Some outside_start] None []) half_margins half_margins 20
           (StartState 0) outside_start
           lowest_uniform_within corridor_plain
           half_margins_nonnegative half_margins_nonnegative eq_refl eq_refl).
Defined.

Lemma fixInvalidInputStates_noop_witness :
  fixInvalidInputStates corridor_space free_space unit lowest_uniform
    identity_quaternion (fun _ => tt)
    (mkPlanningQuery [Some [1; 1]; None] (Some (GoalState (Some [2; 2]))) [])
    half_margins half_margins 20
  = mkPlanningQuery [Some [1; 1]; None] (Some (GoalState (Some [2; 2]))) [].
Proof.
  apply (fixInvalidInputStates_noop corridor_space free_space unit lowest_uniform
           identity_quaternion (fun _ => tt)).
  intros [[|[|i]]|] st H; simpl in H;
    try (destruct i; discriminate H); try discriminate H;
    injection H as <-; split; reflexivity.
Defined.

Lemma fixInvalidInputStates_frame_witness :
  length (m_startStates
            (fixInvalidInputStates corridor_space below_five unit lowest_uniform
               identity_quaternion (fun _ => tt) mixed_query
               half_margins half_margins 20)) = length (m_startStates mixed_query) /\
  (forall i, nth_error (m_startStates mixed_query) i = Some None ->
     nth_error (m_startStates
                  (fixInvalidInputStates corridor_space below_five unit lowest_uniform
                     identity_quaternion (fun _ => tt) mixed_query
                     half_margins half_margins 20)) i = Some None) /\
  (input_state mixed_query GoalInput = None ->
   m_goal (fixInvalidInputStates corridor_space below_five unit lowest_uniform
             identity_quaternion (fun _ => tt) mixed_query
             half_margins half_margins 20) = m_goal mixed_query) /\
  exists said,
    m_msg (fixInvalidInputStates corridor_space below_five unit lowest_uniform
             identity_quaternion (fun _ => tt) mixed_query
             half_margins half_margins 20) = m_msg mixed_query ++ said.
Proof.
  apply (fixInvalidInputStates_frame corridor_space below_five unit lowest_uniform
           identity_quaternion (fun _ => tt) mixed_query half_margins half_margins 20).
Defined.
